(** * 177dl: a shallow embedding of [ComicDownloader]

    The development follows [177dl.py]: the string helpers the crawler
    calls, the document tree that BeautifulSoup hands back, the crawl
    [get_comic_info] with its two nested try blocks, and the download loop
    [download_images].  Python text is modelled by [string]; the character
    classes below ([str.strip], [str.lower], [int]) are written for the
    ASCII range and leave every other character alone. *)

From Stdlib Require Import ZArith Ascii String DecimalString DecimalNat.
From stdpp Require Import base list gmap strings sorting.

Set Warnings "-register-all".
Local Open Scope string_scope.
Local Open Scope Z_scope.
Local Open Scope list_scope.

(** ** Python string operations *)

Module PyStr.

(** The characters [str.strip()] and [int()] treat as blank:
  TAB, LF, VT, FF, CR, the separators 0x1c-0x1f and the space. *)
Definition isspace (c : ascii) : bool :=
let n := nat_of_ascii c in
((9 <=? n) && (n <=? 13) || (28 <=? n) && (n <=? 32))%nat.

Definition isdigit (c : ascii) : bool :=
let n := nat_of_ascii c in ((48 <=? n) && (n <=? 57))%nat.

Definition lower_char (c : ascii) : ascii :=
let n := nat_of_ascii c in
if ((65 <=? n) && (n <=? 90))%nat then ascii_of_nat (n + 32) else c.

(** [s.lower()] *)
Fixpoint lower (s : string) : string :=
match s with
| EmptyString => EmptyString
| String c r => String (lower_char c) (lower r)
end.

(** [s.lstrip(...)] for the characters accepted by [drop]. *)
Fixpoint lstrip (drop : ascii -> bool) (s : string) : string :=
match s with
| EmptyString => EmptyString
| String c r => if drop c then lstrip drop r else s
end.

(** [s.rstrip(...)]: a character goes when it is accepted by [drop] and
  everything to its right went as well. *)
Fixpoint rstrip (drop : ascii -> bool) (s : string) : string :=
match s with
| EmptyString => EmptyString
| String c r =>
    match rstrip drop r with
    | EmptyString => if drop c then EmptyString else String c EmptyString
    | r' => String c r'
    end
end.

(** [s.strip()] *)
Definition strip (s : string) : string := lstrip isspace (rstrip isspace s).

(** [s.split(sep)] for a one-character separator: never the empty list. *)
Fixpoint split (sep : ascii) (s : string) : list string :=
match s with
| EmptyString => [EmptyString]
| String c r =>
    if Ascii.eqb c sep then EmptyString :: split sep r
    else match split sep r with
         | [] => [String c EmptyString]
         | seg :: segs => String c seg :: segs
         end
end.

(** [needle in hay] *)
Fixpoint contains (needle hay : string) : bool :=
String.prefix needle hay
|| match hay with
   | EmptyString => false
   | String _ r => contains needle r
   end.

(** The digit loop of [int(s)]: decimal digits, with single underscores
  allowed between two digits. [prev] tells whether the previous character
  was a digit. *)
Fixpoint int_digits (s : string) (acc : Z) (prev : bool) : option Z :=
match s with
| EmptyString => if prev then Some acc else None
| String c r =>
    if isdigit c then
      int_digits r (10 * acc + (Z.of_nat (nat_of_ascii c) - 48)) true
    else if Ascii.eqb c "_" && prev then int_digits r acc false
    else None
end.

(** [int(s)]: [None] stands for [ValueError]. *)
Definition int (s : string) : option Z :=
match strip s with
| String "+" r => int_digits r 0 false
| String "-" r => Z.opp <$> int_digits r 0 false
| r => int_digits r 0 false
end.

(** [str(n)] for a natural number, and the format [{n:03d}]. *)
Definition str_nat (n : nat) : string := NilZero.string_of_uint (Nat.to_uint n).

Definition zfill3 (s : string) : string :=
match String.length s with
| O => "000" +:+ s
| 1%nat => "00" +:+ s
| 2%nat => "0" +:+ s
| _ => s
end.

Definition format_03d (n : nat) : string := zfill3 (str_nat n).

End PyStr.

(** ** Title clean-up: the [re.sub] of line 33, followed by [strip()] *)

(** The character class of the regular expression: backslash, slash,
    star, question mark, colon, double quote (written by its code, 34),
    the two angle brackets and the bar. *)
Definition forbidden (c : ascii) : bool :=
  existsb (Ascii.eqb c)
    ["\"; "/"; "*"; "?"; ":"; ascii_of_nat 34; "<"; ">"; "|"]%char.

(** [re.sub(class, '', s)]: every character of the class is removed. *)
Fixpoint re_sub_forbidden (s : string) : string :=
  match s with
  | EmptyString => EmptyString
  | String c r =>
      if forbidden c then re_sub_forbidden r else String c (re_sub_forbidden r)
  end.

Definition sanitize (title : string) : string :=
  PyStr.strip (re_sub_forbidden title).

(** ** The parsed document

    What [BeautifulSoup(text, 'lxml')] returns: a tree of tags and text.
    A tag keeps its multi-valued [class] attribute as a list of tokens and
    its other attributes as a dictionary. *)

Inductive node : Type :=
| NavigableString (s : string)
| Tag (name : string) (class_ : list string) (attrs : gmap string string)
      (contents : list node).

(** [tag.descendants]: everything below a tag, in document order. *)
Fixpoint descendants (n : node) : list node :=
  match n with
  | NavigableString _ => []
  | Tag _ _ _ contents =>
      (fix walk (l : list node) : list node :=
         match l with
         | [] => []
         | c :: r => c :: descendants c ++ walk r
         end) contents
  end.

Definition has_name (name : string) (n : node) : bool :=
  match n with
  | NavigableString _ => false
  | Tag name' _ _ _ => String.eqb name' name
  end.

Definition has_class (cls : string) (n : node) : bool :=
  match n with
  | NavigableString _ => false
  | Tag _ class_ _ _ => existsb (String.eqb cls) class_
  end.

(** [tag.get(attr)]: [None] when the attribute is absent. *)
Definition get (n : node) (attr : string) : option string :=
  match n with
  | NavigableString _ => None
  | Tag _ _ attrs _ => attrs !! attr
  end.

(** [tag.get(attr, '')] *)
Definition get_or_empty (n : node) (attr : string) : string :=
  default "" (get n attr).

(** [soup.find_all(name)] *)
Definition find_all (name : string) (soup : node) : list node :=
  List.filter (has_name name) (descendants soup).

(** [soup.find_all(name, attr=True)]: only the tags that carry [attr]. *)
Definition find_all_with (name attr : string) (soup : node) : list node :=
  List.filter (fun n => bool_decide (is_Some (get n attr))) (find_all name soup).

(** [soup.find(name)]: the first match, [None] when there is none. *)
Definition find (name : string) (soup : node) : option node :=
  head (find_all name soup).

(** [soup.find(name, class_=cls)] *)
Definition find_class (name cls : string) (soup : node) : option node :=
  head (List.filter (has_class cls) (find_all name soup)).

(** [tag.get_text(strip=True)]: every text below the tag is stripped, the
    empty ones are dropped and the rest is joined without a separator. *)
Definition stripped_strings (n : node) : list string :=
  List.filter (fun s => negb (String.eqb s ""))
    (omap (fun d => match d with
                    | NavigableString s => Some (PyStr.strip s)
                    | Tag _ _ _ _ => None
                    end) (descendants n)).

Definition get_text_strip (n : node) : string :=
  String.concat "" (stripped_strings n).

(** ** Page extraction (lines 26-48) *)

(** Lines 27-30: the heading the title is read from, and its text. *)
Definition title_tag (soup : node) : option node :=
  match find_class "h1" "entry-title" soup with
  | Some t => Some t
  | None => find "h1" soup
  end.

Definition raw_title (soup : node) : string :=
  match title_tag soup with
  | Some t => get_text_strip t
  | None => "Unknown_Comic"
  end.

(** Line 33. *)
Definition page_title (soup : node) : string := sanitize (raw_title soup).

(** The test of lines 39, 47 and 84. *)
Definition is_comic_image (src : string) : bool :=
  PyStr.contains "177picyy.com" src
  && existsb (fun ext => PyStr.contains ext (PyStr.lower src))
       [".jpg"; ".jpeg"; ".png"; ".gif"].

(** The body of the three scanning loops: read one attribute of one
    [img] tag and append the value to the list when it passes the test. *)
Definition collect (img : node) (images : list string) (attr : string)
  : list string :=
  let src := get_or_empty img attr in
  if is_comic_image src then images ++ [src] else images.

(** Lines 37-40 and 82-85: the loop over [find_all('img')] reading [src]. *)
Definition scan_src (soup : node) (images : list string) : list string :=
  fold_left (fun images img => collect img images "src")
    (find_all "img" soup) images.

(** Lines 44-48: for each [img], the loop over the two lazy-load
    attributes. *)
Definition scan_lazy (soup : node) (images : list string) : list string :=
  fold_left (fun images img =>
               fold_left (collect img) ["data-src"; "data-lazy-src"] images)
    (find_all "img" soup) images.

(** Lines 36-48: the images of the entry page. *)
Definition entry_images (soup : node) : list string :=
  let images := scan_src soup [] in
  match images with
  | [] => scan_lazy soup images
  | _ => images
  end.

(** ** Pagination (lines 50-69) *)

(** Line 61: [int(href.rstrip('/').split('/')[-1])]; [None] stands for the
    [ValueError] or [IndexError] the loop swallows. *)
Definition page_num (href : string) : option Z :=
  last (PyStr.split "/" (PyStr.rstrip (Ascii.eqb "/") href)) ≫= PyStr.int.

(** Lines 57-64. *)
Definition page_links (pagination : node) : list (Z * string) :=
  fold_left (fun page_links a =>
               let href := get_or_empty a "href" in
               match page_num href with
               | Some n => page_links ++ [(n, href)]
               | None => page_links
               end)
    (find_all_with "a" "href" pagination) [].

(** [sorted(page_links, key=lambda x: x[0])]: a stable sort on the page
    number. A link is inserted in front of the first link whose number is
    not smaller, so links with equal numbers keep their order. *)
Fixpoint insert_by_num (x : Z * string) (l : list (Z * string))
  : list (Z * string) :=
  match l with
  | [] => [x]
  | y :: r => if x.1 <=? y.1 then x :: l else y :: insert_by_num x r
  end.

Definition sorted (l : list (Z * string)) : list (Z * string) :=
  foldr insert_by_num [] l.

(** Lines 67-69. *)
Definition add_pages (links : list (Z * string)) (all_pages : list string)
  : list string :=
  fold_left (fun all_pages '(_, link) =>
               if bool_decide (link ∈ all_pages) then all_pages
               else all_pages ++ [link])
    links all_pages.

(** Lines 51-69. *)
Definition all_pages (url : string) (soup : node) : list string :=
  match find_class "div" "pagination" soup with
  | Some pagination => add_pages (sorted (page_links pagination)) [url]
  | None => [url]
  end.

(** ** De-duplication (lines 94-99) *)

Fixpoint unique_loop (images : list string) (seen : gset string)
    (unique_images : list string) : list string :=
  match images with
  | [] => unique_images
  | img :: rest =>
      if bool_decide (img ∈ seen) then unique_loop rest seen unique_images
      else unique_loop rest ({[img]} ∪ seen) (unique_images ++ [img])
  end.

Definition unique (images : list string) : list string :=
  unique_loop images ∅ [].

(** ** The outside world *)

Inductive exn : Type :=
| RequestException (msg : string)   (* connection failure, timeout *)
| HTTPError (status_code : Z)       (* raised by [raise_for_status] *)
| ParserError (msg : string)
| OSError (msg : string).

Inductive outcome (A : Type) : Type :=
| Returns (a : A)
| Raises (e : exn).
Arguments Returns {A} a.
Arguments Raises {A} e.

Record Response : Type := mkResponse { status_code : Z; text : string }.

(** [response.raise_for_status()]: client and server errors raise. *)
Definition raise_for_status (status : Z) : outcome unit :=
  if (400 <=? status) && (status <? 600)
  then Raises (HTTPError status)
  else Returns tt.

(** What the program prints, and the requests it sends. *)
Inductive message : Type :=
| ErrorGettingComicInfo (e : exn)
| ErrorProcessingPage (page_url : string) (e : exn)
| Skipping (img_name : string)
| Downloading (img_name : string)
| Downloaded (img_name : string)
| ErrorDownloading (img_url : string) (e : exn).

Inductive event : Type :=
| Get (url : string)
| Print (m : message).

Record GalleryInfo : Type := mkInfo { title : string; images : list string }.

(** ** The crawl (lines 19-108)

    [session_get] is [self.session.get(url, timeout=10)] and
    [BeautifulSoup] the parser; both belong to libraries and are taken as
    given. The crawl asks for every address at most once, so a function of
    the address is enough. *)

Section Crawler.
Context (session_get : string -> outcome Response).
Context (BeautifulSoup : string -> outcome node).

(** Lines 22-24. *)
Definition fetch_entry (url : string) : outcome node :=
  match session_get url with
  | Raises e => Raises e
  | Returns response =>
      match raise_for_status (status_code response) with
      | Raises e => Raises e
      | Returns _ => BeautifulSoup (text response)
      end
  end.

(** Lines 75-76: a later page is requested and parsed; its status is
    not looked at. *)
Definition fetch_page (page_url : string) : outcome node :=
  match session_get page_url with
  | Raises e => Raises e
  | Returns page_response => BeautifulSoup (text page_response)
  end.

(** Lines 74-78: the soup of one page of the loop, with the request it
    costs. *)
Definition page_soup (url : string) (soup : node) (page_url : string)
  : outcome node * list event :=
  if negb (String.eqb page_url url) then (fetch_page page_url, [Get page_url])
  else (Returns soup, []).

(** Lines 73-91: one turn of the loop over [all_pages]. The state is the
    list [images] and what was sent and printed so far. *)
Definition process_page (url : string) (soup : node)
    (st : list string * list event) (page_url : string)
  : list string * list event :=
  let '(images, log) := st in
  match page_soup url soup page_url with
  | (Returns page_soup, sent) =>
      let page_images := scan_src page_soup [] in
      (images ++ page_images, log ++ sent)
  | (Raises e, sent) =>
      (images, log ++ sent ++ [Print (ErrorProcessingPage page_url e)])
  end.

Definition get_comic_info (url : string) : option GalleryInfo * list event :=
  match fetch_entry url with
  | Raises e => (None, [Get url; Print (ErrorGettingComicInfo e)])
  | Returns soup =>
      let title := page_title soup in
      let images := entry_images soup in
      let all_pages := all_pages url soup in
      let '(images, log) :=
        fold_left (process_page url soup) all_pages (images, [Get url]) in
      (Some (mkInfo title (unique images)), log)
  end.
End Crawler.

(** ** The download loop (lines 110-145) *)

(** [os.path.basename] and [os.path.join] on POSIX paths. *)
Definition basename (p : string) : string :=
  default "" (last (PyStr.split "/" p)).

Definition ends_with_slash (p : string) : bool :=
  match last (list_ascii_of_string p) with
  | Some c => Ascii.eqb c "/"
  | None => false
  end.

Definition path_join (a b : string) : string :=
  if String.prefix "/" b then b
  else if String.eqb a "" || ends_with_slash a then a +:+ b
  else a +:+ ("/" +:+ b).

(** The disk: the directories, and the files with their contents. *)
Record filesystem : Type := mkFs { dirs : gset string; files : gmap string string }.

Definition path_exists (fs : filesystem) (p : string) : bool :=
  bool_decide (p ∈ dirs fs) || bool_decide (is_Some (files fs !! p)).

Definition makedirs (p : string) (fs : filesystem) : filesystem :=
  mkFs ({[p]} ∪ dirs fs) (files fs).

Definition write_file (p content : string) (fs : filesystem) : filesystem :=
  mkFs (dirs fs) (<[p := content]> (files fs)).

(** A streamed response: the chunks [iter_content] delivers and, when the
    transfer breaks, the exception that ends it. *)
Record Stream : Type :=
  mkStream { stream_status : Z; iter_content : list string; broken : option exn }.

(** Lines 135-137: empty chunks are not written. *)
Definition write_chunks (chunks : list string) : string :=
  fold_left (fun f chunk => if String.eqb chunk "" then f else f +:+ chunk)
    chunks "".

Record progress : Type :=
  mkProgress { disk : filesystem; downloaded : nat; output : list event }.

Section Downloader.
(** [urlparse(u).path], the streamed [session.get] (asked at turn [i] of
    the loop) and whether [open(path, 'wb')] raises are taken as given. *)
Context (urlparse_path : string -> string).
Context (session_get_stream : nat -> string -> outcome Stream).
Context (open_wb : string -> option exn).

(** Lines 119-121. *)
Definition img_name (i : nat) (img_url : string) : string :=
  let name := basename (urlparse_path img_url) in
  if String.eqb name "" then "image_" +:+ (PyStr.format_03d i +:+ ".jpg")
  else name.

(** Lines 131-137: the request and the write; the disk afterwards and
    whether an exception escaped. *)
Definition fetch_and_write (fs : filesystem) (i : nat)
    (img_url img_path : string) : filesystem * outcome unit :=
  match session_get_stream i img_url with
  | Raises e => (fs, Raises e)
  | Returns response =>
      match raise_for_status (stream_status response) with
      | Raises e => (fs, Raises e)
      | Returns _ =>
          match open_wb img_path with
          | Some e => (fs, Raises e)
          | None =>
              (write_file img_path (write_chunks (iter_content response)) fs,
               match broken response with
               | Some e => Raises e
               | None => Returns tt
               end)
          end
      end
  end.

(** Lines 117-143: one turn of the loop. *)
Definition download_one (output_dir : string) (st : progress)
    (item : nat * string) : progress :=
  let '(i, img_url) := item in
  let name := img_name i img_url in
  let img_path := path_join output_dir name in
  if path_exists (disk st) img_path then
    mkProgress (disk st) (downloaded st) (output st ++ [Print (Skipping name)])
  else
    match fetch_and_write (disk st) i img_url img_path with
    | (fs, Returns _) =>
        mkProgress fs (S (downloaded st))
          (output st ++ [Print (Downloading name); Get img_url;
                         Print (Downloaded name)])
    | (fs, Raises e) =>
        mkProgress fs (downloaded st)
          (output st ++ [Print (Downloading name); Get img_url;
                         Print (ErrorDownloading img_url e)])
    end.

(** [enumerate(image_urls, start)] *)
Fixpoint enumerate (start : nat) (l : list string) : list (nat * string) :=
  match l with
  | [] => []
  | x :: r => (start, x) :: enumerate (S start) r
  end.

(** Lines 112-115: the directory is made when it is missing (taken to
    succeed), nothing is downloaded yet. *)
Definition prepare (fs : filesystem) (output_dir : string) : progress :=
  mkProgress
    (if path_exists fs output_dir then fs else makedirs output_dir fs) 0 [].

(** The value returned is the field [downloaded] of the final state. *)
Definition download_images (fs : filesystem) (image_urls : list string)
    (output_dir : string) : progress :=
  fold_left (download_one output_dir) (enumerate 1 image_urls)
    (prepare fs output_dir).
End Downloader.

(** ** The driver (lines 147-179)

    What [main] prints itself; the lines printed by the crawl and by the
    download loop, and their requests, are kept as they are. The directory
    of line 174 is printed through [os.path.abspath], which is left out. *)

Inductive main_message : Type :=
| Usage
| UsageExample
| FetchingFrom (comic_url : string)
| NoComic
| ComicTitle (title : string)
| FoundImages (n : nat)
| DownloadingTo (comic_dir : string)
| DownloadComplete (downloaded : nat) (comic_dir : string).

Record main_result : Type :=
  mkMain { main_output : list (main_message + event); main_disk : filesystem }.

Section Main.
Context (session_get : string -> outcome Response).
Context (BeautifulSoup : string -> outcome node).
Context (urlparse_path : string -> string).
Context (session_get_stream : nat -> string -> outcome Stream).
Context (open_wb : string -> option exn).

(** Lines 167-179: a crawl that found images. *)
Definition download_comic (fs : filesystem) (output_dir : string)
    (comic_info : GalleryInfo) : main_result :=
  let safe_title := sanitize (title comic_info) in
  let comic_dir := path_join output_dir safe_title in
  let run :=
    download_images urlparse_path session_get_stream open_wb fs
      (images comic_info) comic_dir in
  mkMain
    ([inl (ComicTitle (title comic_info));
      inl (FoundImages (length (images comic_info)));
      inl (DownloadingTo comic_dir)]
     ++ (inr <$> output run)
     ++ [inl (DownloadComplete (downloaded run) comic_dir)])
    (disk run).

(** [argv] is [sys.argv]: the program name, the address, and perhaps the
    directory. *)
Definition main (argv : list string) (fs : filesystem) : main_result :=
  match argv with
  | [] | [_] => mkMain [inl Usage; inl UsageExample] fs
  | _ :: comic_url :: rest =>
      let output_dir :=
        match rest with
        | dir :: _ => dir
        | [] => "downloaded_comics"
        end in
      let '(comic_info, crawl_log) :=
        get_comic_info session_get BeautifulSoup comic_url in
      let fetching := inl (FetchingFrom comic_url) :: (inr <$> crawl_log) in
      match comic_info with
      | None => mkMain (fetching ++ [inl NoComic]) fs
      | Some info =>
          match images info with
          | [] => mkMain (fetching ++ [inl NoComic]) fs
          | _ :: _ =>
              let result := download_comic fs output_dir info in
              mkMain (fetching ++ main_output result) (main_disk result)
          end
      end
  end.
End Main.

(** ** Vocabulary of the statements *)

(** Every character of [s] passes [p]; some character of [s] passes [p]. *)
Fixpoint all_chars (p : ascii -> bool) (s : string) : bool :=
  match s with
  | EmptyString => true
  | String c r => p c && all_chars p r
  end.


Definition allowed (c : ascii) : bool := negb (forbidden c).

(** The elements of a list, each at the place of its first occurrence. *)
Fixpoint first_occurrences (l : list string) : list string :=
  match l with
  | [] => []
  | x :: r => x :: filter (fun y => y ≠ x) (first_occurrences r)
  end.

(** [x] stands before [y] in a list without repetition. *)
Definition precedes (x y : string) (l : list string) : Prop :=
  ∃ l1 l2, l = l1 ++ y :: l2 ∧ x ∈ l1.

(** [x] has been seen in [l] before [y] is seen for the first time. *)
Definition first_seen_before (x y : string) (l : list string) : Prop :=
  ∃ l1 l2, l = l1 ++ y :: l2 ∧ (y ∉ l1) ∧ x ∈ l1.

(** What the scanning loops collect, written without a loop: the [src]
    values of a page that pass the test, and the lazy-load values of one
    [img] tag that pass it. *)
Definition src_urls (soup : node) : list string :=
  List.filter is_comic_image
    (map (fun img => get_or_empty img "src") (find_all "img" soup)).

Definition lazy_urls (img : node) : list string :=
  List.filter is_comic_image
    [get_or_empty img "data-src"; get_or_empty img "data-lazy-src"].

(** The [href] values of the links of the pagination block, in document
    order. *)
Definition hrefs (pagination : node) : list string :=
  map (fun a => get_or_empty a "href") (find_all_with "a" "href" pagination).

Definition numbered (href : string) : option (Z * string) :=
  (fun n => (n, href)) <$> page_num href.

Definition num_le (x y : Z * string) : Prop := x.1 <= y.1.

(** The pages after the entry page, what each adds to [images], and what
    each leaves in the log. *)
Definition later_pages (url : string) (soup : node) : list string :=
  tail (all_pages url soup).

Section CrawlVocabulary.
Context (session_get : string -> outcome Response).
Context (BeautifulSoup : string -> outcome node).

Definition page_images (page_url : string) : list string :=
  match fetch_page session_get BeautifulSoup page_url with
  | Returns page_soup => src_urls page_soup
  | Raises _ => []
  end.

Definition page_log (page_url : string) : list event :=
  Get page_url ::
  match fetch_page session_get BeautifulSoup page_url with
  | Returns _ => []
  | Raises e => [Print (ErrorProcessingPage page_url e)]
  end.
End CrawlVocabulary.

(** The addresses requested, in the order of the requests. *)
Definition requests (log : list event) : list string :=
  omap (fun e => match e with Get url => Some url | Print _ => None end) log.


Section DownloadVocabulary.
Context (urlparse_path : string -> string).
Context (session_get_stream : nat -> string -> outcome Stream).
Context (open_wb : string -> option exn).

(** Where the image of turn [i] goes. *)
Definition target (output_dir : string) (item : nat * string) : string :=
  path_join output_dir (img_name urlparse_path item.1 item.2).

(** The state of the loop when [k] addresses have been dealt with. *)
Definition after_turns (fs : filesystem) (image_urls : list string)
    (output_dir : string) (k : nat) : progress :=
  fold_left (download_one urlparse_path session_get_stream open_wb output_dir)
    (take k (enumerate 1 image_urls)) (prepare fs output_dir).

(** A turn downloads an image when the target is not there and neither
    the request nor the write raises. *)
Definition completes (output_dir : string) (st : progress)
    (item : nat * string) : bool :=
  negb (path_exists (disk st) (target output_dir item))
  && match fetch_and_write session_get_stream open_wb (disk st) item.1 item.2
             (target output_dir item) with
     | (_, Returns _) => true
     | (_, Raises _) => false
     end.

(** The number of turns, from state [st] on, that download an image. *)
Fixpoint completed (output_dir : string) (items : list (nat * string))
    (st : progress) : nat :=
  match items with
  | [] => 0
  | item :: rest =>
      ((if completes output_dir st item then 1 else 0)
       + completed output_dir rest
           (download_one urlparse_path session_get_stream open_wb
              output_dir st item))%nat
  end.
End DownloadVocabulary.

(** [needle] occurs in [hay]. *)
Definition occurs_in (needle hay : string) : Prop :=
  ∃ before after, hay = before +:+ (needle +:+ after).


(** The requests sent and the lines printed by the crawl and by the
    download loop, as they appear in the output of [main]. *)
Definition inner_events (out : list (main_message + event)) : list event :=
  omap (fun x => match x with inr e => Some e | inl _ => None end) out.

(** Reading a decimal numeral back. *)
Definition read_nat (s : string) : option nat :=
  Nat.of_uint <$> NilEmpty.uint_of_string s.

(** ** A small site, used to run the definitions *)

Module Demo.
Definition img (attr value : string) : node :=
  Tag "img" [] {[ attr := value ]} [].
Definition a (href : string) : node :=
  Tag "a" [] {[ "href" := href ]} [NavigableString href].
Definition h1 (class_ : list string) (s : string) : node :=
  Tag "h1" class_ ∅ [NavigableString s].
Definition pagination (links : list node) : node :=
  Tag "div" ["pagination"] ∅ links.
Definition html (contents : list node) : node := Tag "html" [] ∅ contents.
Definition quote : string := String (ascii_of_nat 34) "".

Definition root : string := "https://www.177picyy.com/html/2025/06/7333200.html".
Definition p1 : string := "https://www.177picyy.com/html/2025/06/7333200.html/1/".
Definition p2 : string := "https://www.177picyy.com/html/2025/06/7333200.html/2/".
Definition p3 : string := "https://www.177picyy.com/html/2025/06/7333200.html/3/".
Definition next : string := "https://www.177picyy.com/html/2025/06/7333200.html/next".
Definition pic (name : string) : string := "https://img.177picyy.com/" +:+ name.

(** A site answers the addresses it lists and times out on the others;
    the parser knows the listed texts and reads anything else as an empty
    document. *)
Fixpoint assoc {A} (key : string) (l : list (string * A)) : option A :=
  match l with
  | [] => None
  | (k, v) :: r => if String.eqb k key then Some v else assoc key r
  end.

Definition serve (site : list (string * Response)) (url : string)
  : outcome Response :=
  match assoc url site with
  | Some r => Returns r
  | None => Raises (RequestException "timed out")
  end.

Definition parse (docs : list (string * node)) (text : string) : outcome node :=
  Returns (default (html []) (assoc text docs)).

(** A gallery of three later pages, linked in the order 3, 1, next, 2;
    page 2 times out. *)
Definition entry_doc : node :=
  html [h1 ["entry-title"] ("My/Comic: " +:+ (quote +:+ ("Vol 1" +:+ quote)));
        img "src" (pic "a.jpg"); img "src" (pic "b.jpg");
        img "src" (pic "a.jpg");
        pagination [a p3; a p1; a next; a p2]].
Definition page1_doc : node :=
  html [img "src" (pic "c.jpg"); img "src" (pic "b.jpg")].
Definition page3_doc : node := html [img "src" (pic "d.jpg")].

Definition gallery_get : string -> outcome Response :=
  serve [(root, mkResponse 200 "entry"); (p1, mkResponse 200 "page 1");
         (p3, mkResponse 200 "page 3")].
Definition gallery_parse : string -> outcome node :=
  parse [("entry", entry_doc); ("page 1", page1_doc); ("page 3", page3_doc)].

Definition gallery_info : GalleryInfo :=
  mkInfo "MyComic Vol 1" [pic "a.jpg"; pic "b.jpg"; pic "c.jpg"; pic "d.jpg"].
Definition gallery_log : list event :=
  [Get root; Get p1; Get p2;
   Print (ErrorProcessingPage p2 (RequestException "timed out")); Get p3].

(** A gallery of two pages whose second page carries its image in
    [data-src] only. *)
Definition first_doc : node :=
  html [h1 [] "Two pages"; img "src" (pic "a.jpg"); pagination [a p2]].
Definition lazy_doc : node := html [img "data-src" (pic "c.jpg")].

Definition lazy_get : string -> outcome Response :=
  serve [(root, mkResponse 200 "first"); (p2, mkResponse 200 "lazy")].
Definition lazy_parse : string -> outcome node :=
  parse [("first", first_doc); ("lazy", lazy_doc)].

(** The same gallery when the second page is gone: the server answers 404
    with its error page. *)
Definition error_doc : node :=
  html [h1 [] "Not Found"; img "src" "https://www.177picyy.com/images/404.png"].

Definition gone_get : string -> outcome Response :=
  serve [(root, mkResponse 200 "first"); (p2, mkResponse 404 "gone")].
Definition gone_parse : string -> outcome node :=
  parse [("first", first_doc); ("gone", error_doc)].

(** A gallery of one page. *)
Definition single_doc : node :=
  html [h1 ["entry-title"] "Single"; img "src" (pic "imgA.jpg");
        img "src" (pic "imgB.jpg")].
Definition single_get : string -> outcome Response :=
  serve [(root, mkResponse 200 "single")].
Definition single_parse : string -> outcome node :=
  parse [("single", single_doc)].

Definition both_img : node :=
  Tag "img" [] (<["data-src" := pic "a.jpg"]> {[ "data-lazy-src" := pic "b.jpg" ]}) [].
Definition both_doc : node := html [both_img].

(** A disk that holds [a.jpg] already, and a server that delivers every
    image in two chunks. The path of an address is what follows the
    host. *)
Definition path_of (img_url : string) : string :=
  match PyStr.split "/" img_url with
  | _ :: _ :: _ :: segments => "/" +:+ String.concat "/" segments
  | _ => ""
  end.
Definition disk0 : filesystem :=
  mkFs {[ "out" ]} {[ "out/a.jpg" := "old" ]}.
Definition stream_get (i : nat) (img_url : string) : outcome Stream :=
  Returns (mkStream 200 ["JF"; "IF"] None).
Definition open_ok (path : string) : option exn := None.
Definition two_urls : list string := [pic "a.jpg"; pic "b.jpg"].
End Demo.

(** A transfer that breaks after its first chunk. *)
Module DemoDisk.
Definition broken_get (i : nat) (img_url : string) : outcome Stream :=
  Returns (mkStream 200 ["JF"] (Some (RequestException "connection reset"))).
Definition empty_disk : filesystem := mkFs ∅ ∅.
Definition argv : list string := ["177dl.py"; Demo.root].
End DemoDisk.

(** * Properties *)

(** ** Strings *)

Section StringFacts.
Variables drop keep : ascii -> bool.

Lemma all_chars_lstrip s :
  all_chars keep s = true -> all_chars keep (PyStr.lstrip drop s) = true.
Proof.
  induction s as [|c r IH]; simpl; [done|].
  intros [Hc Hr]%andb_true_iff. destruct (drop c); simpl; [auto|].
  by rewrite Hc, Hr.
Qed.

Lemma all_chars_rstrip s :
  all_chars keep s = true -> all_chars keep (PyStr.rstrip drop s) = true.
Proof.
  induction s as [|c r IH]; simpl; [done|].
  intros [Hc Hr]%andb_true_iff. specialize (IH Hr).
  destruct (PyStr.rstrip drop r) as [|c' r'].
  - destruct (drop c); simpl; [done|]. by rewrite Hc.
  - simpl in *. by rewrite Hc, IH.
Qed.




Lemma lstrip_idem s :
  PyStr.lstrip drop (PyStr.lstrip drop s) = PyStr.lstrip drop s.
Proof.
  induction s as [|c r IH]; simpl; [done|].
  destruct (drop c) eqn:Hc; [done|]. simpl. by rewrite Hc.
Qed.

Lemma rstrip_idem s :
  PyStr.rstrip drop (PyStr.rstrip drop s) = PyStr.rstrip drop s.
Proof.
  induction s as [|c r IH]; simpl; [done|].
  destruct (PyStr.rstrip drop r) as [|c' r'] eqn:E.
  - destruct (drop c) eqn:Hc; simpl; [done|]. by rewrite Hc.
  - change (PyStr.rstrip drop (String c (String c' r')))
      with (match PyStr.rstrip drop (String c' r') with
            | EmptyString => if drop c then EmptyString else String c EmptyString
            | r0 => String c r0
            end).
    by rewrite IH.
Qed.

(** Stripping on the left does not uncover anything to strip on the
    right. *)
Lemma rstrip_lstrip_fixed s :
  PyStr.rstrip drop s = s ->
  PyStr.rstrip drop (PyStr.lstrip drop s) = PyStr.lstrip drop s.
Proof.
  induction s as [|c r IH]; [done|].
  intros H. simpl PyStr.lstrip. destruct (drop c) eqn:Hc; [|done].
  apply IH. simpl in H. rewrite Hc in H.
  destruct (PyStr.rstrip drop r); [discriminate|]. by injection H.
Qed.
End StringFacts.

Lemma strip_idem s : PyStr.strip (PyStr.strip s) = PyStr.strip s.
Proof.
  unfold PyStr.strip.
  rewrite (rstrip_lstrip_fixed _ _ (rstrip_idem _ s)). apply lstrip_idem.
Qed.


Lemma all_chars_strip keep s :
  all_chars keep s = true -> all_chars keep (PyStr.strip s) = true.
Proof. intros H. by apply all_chars_lstrip, all_chars_rstrip. Qed.

Lemma re_sub_forbidden_allowed s : all_chars allowed (re_sub_forbidden s) = true.
Proof.
  induction s as [|c r IH]; simpl; [done|].
  destruct (forbidden c) eqn:Hc; simpl; [done|].
  unfold allowed at 1. by rewrite Hc.
Qed.

Lemma re_sub_forbidden_fixed s :
  all_chars allowed s = true -> re_sub_forbidden s = s.
Proof.
  induction s as [|c r IH]; simpl; [done|].
  intros [Hc Hr]%andb_true_iff. unfold allowed in Hc.
  apply negb_true_iff in Hc. rewrite Hc. by rewrite IH.
Qed.

Lemma sanitize_allowed s : all_chars allowed (sanitize s) = true.
Proof. apply all_chars_strip, re_sub_forbidden_allowed. Qed.



(** C10. Cleaning a title is idempotent: removing the characters of the
    class and trimming blanks leaves an already cleaned title as it is, so
    the second clean-up in [main] (line 171) changes nothing. *)
Theorem sanitize_idempotent (title : string) :
  sanitize (sanitize title) = sanitize title.
Proof.
  unfold sanitize at 1.
  rewrite (re_sub_forbidden_fixed _ (sanitize_allowed title)).
  apply strip_idem.
Qed.

(** ** De-duplication *)

Lemma filter_first_occurrences_seen (seen : gset string) x (l : list string) :
  x ∈ seen ->
  filter (fun y => y ∉ seen) (filter (fun y => y ≠ x) l)
  = filter (fun y => y ∉ seen) l.
Proof.
  intros Hx. rewrite list_filter_filter. apply list_filter_iff.
  intros y. split; [tauto|]. intros Hy. split; [done|]. congruence.
Qed.

Lemma filter_first_occurrences_new (seen : gset string) x (l : list string) :
  filter (fun y => y ∉ seen) (filter (fun y => y ≠ x) l)
  = filter (fun y => y ∉ ({[x]} ∪ seen : gset string)) l.
Proof.
  rewrite list_filter_filter. apply list_filter_iff. intros y.
  rewrite elem_of_union, elem_of_singleton. tauto.
Qed.

(** The loop of lines 96-99, started anywhere. *)
Lemma unique_loop_closed l : forall seen acc,
  unique_loop l seen acc
  = acc ++ filter (fun y => y ∉ seen) (first_occurrences l).
Proof.
  induction l as [|x r IH]; intros seen acc; simpl.
  - by rewrite app_nil_r.
  - case_bool_decide as Hx.
    + rewrite IH, filter_cons_False by tauto.
      by rewrite filter_first_occurrences_seen.
    + rewrite IH, filter_cons_True by done.
      rewrite filter_first_occurrences_new. by rewrite <- app_assoc.
Qed.

Lemma unique_first_occurrences l : unique l = first_occurrences l.
Proof.
  unfold unique. rewrite unique_loop_closed. simpl.
  induction (first_occurrences l) as [|y k IH]; [done|].
  rewrite filter_cons_True by set_solver. by rewrite IH.
Qed.

Lemma elem_of_first_occurrences x l : x ∈ first_occurrences l <-> x ∈ l.
Proof.
  induction l as [|y r IH]; simpl; [done|].
  rewrite !elem_of_cons, list_elem_of_filter, IH.
  destruct (decide (x = y)); tauto.
Qed.

Lemma NoDup_first_occurrences l : NoDup (first_occurrences l).
Proof.
  induction l as [|y r IH]; simpl; [constructor|].
  constructor; [|by apply NoDup_filter].
  rewrite list_elem_of_filter. tauto.
Qed.

Lemma first_occurrences_app l1 l2 :
  first_occurrences (l1 ++ l2)
  = first_occurrences l1 ++ filter (fun y => y ∉ l1) (first_occurrences l2).
Proof.
  induction l1 as [|x r IH]; simpl.
  - induction (first_occurrences l2) as [|y k IHk]; [done|].
    rewrite filter_cons_True by apply not_elem_of_nil. by rewrite <- IHk.
  - f_equal. rewrite IH, filter_app. f_equal.
    rewrite list_filter_filter. apply list_filter_iff. intros y.
    rewrite elem_of_cons. tauto.
Qed.

Lemma unique_app l1 l2 :
  unique (l1 ++ l2) = unique l1 ++ filter (fun y => y ∉ l1) (unique l2).
Proof. rewrite !unique_first_occurrences. apply first_occurrences_app. Qed.

Lemma elem_of_unique x l : x ∈ unique l <-> x ∈ l.
Proof. rewrite unique_first_occurrences. apply elem_of_first_occurrences. Qed.

Lemma NoDup_unique l : NoDup (unique l).
Proof. rewrite unique_first_occurrences. apply NoDup_first_occurrences. Qed.

Lemma filter_none (P : string -> Prop) `{!∀ x, Decision (P x)} (l : list string) :
  (∀ x, x ∈ l -> ¬ P x) -> filter P l = [].
Proof.
  induction l as [|y r IH]; intros Hall; [done|].
  rewrite filter_cons_False by (apply Hall; left).
  apply IH. intros x Hx. apply Hall. by right.
Qed.

(** What is already there is not added again. *)
Lemma unique_app_absorb l1 l2 l3 :
  l2 ⊆ l1 -> unique (l1 ++ l2 ++ l3) = unique (l1 ++ l3).
Proof.
  intros Hsub. rewrite !unique_app, filter_app.
  replace (filter (fun y => y ∉ l1) (unique l2)) with (@nil string).
  - simpl. f_equal. rewrite list_filter_filter. apply list_filter_iff.
    intros y. split; [tauto|]. intros Hy. split; [done|]. set_solver.
  - symmetry. apply filter_none. intros y Hy. rewrite elem_of_unique in Hy.
    intros Hn. apply Hn. by apply Hsub.
Qed.

(** ** The scanning loops *)

(** A loop that only appends can be read off element by element. *)
Lemma fold_left_append {A B} (g : list B -> A -> list B) (f : A -> list B) :
  (forall acc x, g acc x = acc ++ f x) ->
  forall l acc, fold_left g l acc = acc ++ (l ≫= f).
Proof.
  intros Hg l. induction l as [|x r IH]; intros acc; simpl.
  - by rewrite app_nil_r.
  - by rewrite IH, Hg, <- app_assoc.
Qed.

Lemma collect_append img images attr :
  collect img images attr
  = images ++ List.filter is_comic_image [get_or_empty img attr].
Proof.
  unfold collect. simpl. destruct (is_comic_image _); [done|].
  by rewrite app_nil_r.
Qed.

Lemma scan_src_closed soup images : scan_src soup images = images ++ src_urls soup.
Proof.
  unfold scan_src, src_urls.
  rewrite (fold_left_append _
             (fun img => List.filter is_comic_image [get_or_empty img "src"]))
    by (intros; apply collect_append).
  f_equal.
  induction (find_all "img" soup) as [|img r IH]; [done|].
  rewrite bind_cons, IH. simpl. by destruct (is_comic_image _).
Qed.

Lemma scan_lazy_closed soup images :
  scan_lazy soup images = images ++ (find_all "img" soup ≫= lazy_urls).
Proof.
  unfold scan_lazy. apply fold_left_append.
  intros acc img. simpl. rewrite !collect_append, <- app_assoc.
  f_equal. unfold lazy_urls. simpl.
  by destruct (is_comic_image _), (is_comic_image _).
Qed.

(** Lines 36-48 on the entry page: the [src] values when there are any,
    the lazy-load values otherwise. *)
Lemma entry_images_closed soup :
  entry_images soup
  = match src_urls soup with
    | [] => find_all "img" soup ≫= lazy_urls
    | found => found
    end.
Proof.
  unfold entry_images. rewrite scan_src_closed. simpl.
  destruct (src_urls soup); [|done]. by rewrite scan_lazy_closed.
Qed.

Lemma src_urls_in_entry_images soup : src_urls soup ⊆ entry_images soup.
Proof.
  rewrite entry_images_closed. destruct (src_urls soup); [|done].
  apply list_subseteq_nil.
Qed.

(** ** Pagination *)

Lemma page_links_closed pagination :
  page_links pagination = omap numbered (hrefs pagination).
Proof.
  unfold page_links, hrefs.
  rewrite (fold_left_append _
             (fun a => option_list (numbered (get_or_empty a "href")))).
  - simpl. induction (find_all_with "a" "href" pagination) as [|a r IH]; [done|].
    rewrite bind_cons, IH. simpl. unfold numbered at 1 3.
    by destruct (page_num _).
  - intros acc a. unfold numbered. simpl. destruct (page_num _); simpl; [done|].
    by rewrite app_nil_r.
Qed.

Lemma insert_by_num_perm x l : insert_by_num x l ≡ₚ x :: l.
Proof.
  induction l as [|y r IH]; simpl; [done|].
  destruct (x.1 <=? y.1); [done|]. rewrite IH. apply Permutation_swap.
Qed.

Lemma sorted_perm l : sorted l ≡ₚ l.
Proof.
  induction l as [|x r IH]; simpl; [done|].
  by rewrite insert_by_num_perm, IH.
Qed.

Lemma insert_by_num_sorted x l :
  StronglySorted num_le l -> StronglySorted num_le (insert_by_num x l).
Proof.
  induction l as [|y r IH]; simpl; intros Hs.
  - repeat constructor.
  - apply StronglySorted_inv in Hs as [Hr Hy].
    destruct (Z.leb_spec x.1 y.1) as [Hle|Hlt].
    + constructor; [by constructor|]. constructor; [done|].
      eapply Forall_impl; [exact Hy|]. intros z Hz. unfold num_le in *. lia.
    + constructor; [by apply IH|].
      rewrite insert_by_num_perm. constructor; [|done]. unfold num_le. lia.
Qed.

Lemma sorted_sorted l : StronglySorted num_le (sorted l).
Proof.
  induction l as [|x r IH]; simpl; [constructor|].
  by apply insert_by_num_sorted.
Qed.

(** The sort is stable: links with the same number keep their order. *)
Lemma insert_by_num_stable n x l :
  filter (fun y : Z * string => y.1 = n) (insert_by_num x l)
  = filter (fun y : Z * string => y.1 = n) (x :: l).
Proof.
  induction l as [|y r IH]; simpl; [done|].
  destruct (Z.leb_spec x.1 y.1) as [Hle|Hlt]; [done|].
  rewrite (filter_cons _ y), IH, !(filter_cons _ x), (filter_cons _ y).
  repeat case_decide; try done. lia.
Qed.

Lemma sorted_stable n l :
  filter (fun y : Z * string => y.1 = n) (sorted l)
  = filter (fun y : Z * string => y.1 = n) l.
Proof.
  induction l as [|x r IH]; simpl; [done|].
  by rewrite insert_by_num_stable, !filter_cons, IH.
Qed.

Lemma filter_not_in_seen (seen : list string) x (l : list string) :
  x ∈ seen ->
  filter (fun y => y ∉ seen) (filter (fun y => y ≠ x) l)
  = filter (fun y => y ∉ seen) l.
Proof.
  intros Hx. rewrite list_filter_filter. apply list_filter_iff.
  intros y. split; [tauto|]. intros Hy. split; [done|]. congruence.
Qed.

Lemma filter_not_in_snoc (seen : list string) x (l : list string) :
  filter (fun y => y ∉ seen) (filter (fun y => y ≠ x) l)
  = filter (fun y => y ∉ seen ++ [x]) l.
Proof.
  rewrite list_filter_filter. apply list_filter_iff. intros y.
  rewrite elem_of_app, list_elem_of_singleton. tauto.
Qed.

(** Lines 67-69, started from any list of pages. *)
Lemma add_pages_closed links : forall pages,
  add_pages links pages
  = pages ++ filter (fun y => y ∉ pages) (first_occurrences links.*2).
Proof.
  unfold add_pages.
  induction links as [|[num link] r IH]; intros pages; simpl.
  - by rewrite app_nil_r.
  - case_bool_decide as Hin.
    + rewrite IH, filter_cons_False by tauto.
      by rewrite filter_not_in_seen.
    + rewrite IH, filter_cons_True by done.
      rewrite filter_not_in_snoc. by rewrite <- app_assoc.
Qed.

Lemma all_pages_closed url soup :
  all_pages url soup
  = url :: filter (fun y => y ∉ [url])
             match find_class "div" "pagination" soup with
             | Some pagination =>
                 first_occurrences (sorted (page_links pagination)).*2
             | None => []
             end.
Proof.
  unfold all_pages. destruct (find_class _ _ _); [|done].
  by rewrite add_pages_closed.
Qed.

Lemma all_pages_cons url soup : all_pages url soup = url :: later_pages url soup.
Proof. unfold later_pages. by rewrite all_pages_closed. Qed.

Lemma later_pages_not_entry url soup : url ∉ later_pages url soup.
Proof.
  unfold later_pages. rewrite all_pages_closed. simpl.
  rewrite list_elem_of_filter, list_elem_of_singleton. tauto.
Qed.

Lemma NoDup_all_pages url soup : NoDup (all_pages url soup).
Proof.
  rewrite all_pages_cons. constructor; [apply later_pages_not_entry|].
  unfold later_pages. rewrite all_pages_closed. simpl.
  apply NoDup_filter. destruct (find_class _ _ _); [|constructor].
  apply NoDup_first_occurrences.
Qed.

(** ** The crawl *)

Section CrawlFacts.
Context (session_get : string -> outcome Response).
Context (BeautifulSoup : string -> outcome node).

Abbreviation crawl := (get_comic_info session_get BeautifulSoup).
Abbreviation images_of := (page_images session_get BeautifulSoup).
Abbreviation log_of := (page_log session_get BeautifulSoup).

(** The turn of the loop on the entry page scans it once more and sends
    nothing. *)
Lemma process_entry_again url soup images log :
  process_page session_get BeautifulSoup url soup (images, log) url
  = (images ++ src_urls soup, log).
Proof.
  unfold process_page, page_soup. rewrite String.eqb_refl. simpl.
  by rewrite scan_src_closed, app_nil_r.
Qed.

Lemma process_later_page url soup images log page_url :
  page_url ≠ url ->
  process_page session_get BeautifulSoup url soup (images, log) page_url
  = (images ++ images_of page_url, log ++ log_of page_url).
Proof.
  intros Hne. unfold process_page, page_soup, page_images, page_log.
  apply String.eqb_neq in Hne. rewrite Hne. simpl.
  destruct (fetch_page _ _ _).
  - by rewrite scan_src_closed.
  - by rewrite app_nil_r.
Qed.

Lemma process_later_pages url soup pages :
  url ∉ pages -> forall images log,
  fold_left (process_page session_get BeautifulSoup url soup) pages
    (images, log)
  = (images ++ (pages ≫= images_of), log ++ (pages ≫= log_of)).
Proof.
  induction pages as [|p r IH]; intros Hnot images log; cbn [fold_left].
  - by rewrite !app_nil_r.
  - apply not_elem_of_cons in Hnot as [Hp Hr].
    rewrite process_later_page by done. rewrite IH by done.
    by rewrite <- !app_assoc.
Qed.

(** A crawl whose entry page arrives: the title of the entry page, and
    the images of the entry page followed by those of the later pages
    that arrived, without repetition. *)
Lemma get_comic_info_returns url soup :
  fetch_entry session_get BeautifulSoup url = Returns soup ->
  crawl url
  = (Some (mkInfo (page_title soup)
             (unique (entry_images soup
                      ++ (later_pages url soup ≫= images_of)))),
     Get url :: (later_pages url soup ≫= log_of)).
Proof.
  intros Hentry. unfold get_comic_info. rewrite Hentry.
  rewrite all_pages_cons. cbn [fold_left].
  rewrite process_entry_again.
  rewrite process_later_pages by apply later_pages_not_entry.
  rewrite <- app_assoc.
  by rewrite unique_app_absorb by apply src_urls_in_entry_images.
Qed.

Lemma get_comic_info_raises url e :
  fetch_entry session_get BeautifulSoup url = Raises e ->
  crawl url = (None, [Get url; Print (ErrorGettingComicInfo e)]).
Proof. intros Hentry. unfold get_comic_info. by rewrite Hentry. Qed.
End CrawlFacts.

(** ** Order of first appearance *)

Lemma NoDup_split_unique (y : string) a : forall b a' b',
  NoDup (a ++ y :: b) -> a ++ y :: b = a' ++ y :: b' -> a = a'.
Proof.
  induction a as [|z a0 IH]; intros b a' b' Hnd Heq.
  - destruct a' as [|z' a0']; [done|]. simpl in *.
    injection Heq as -> ->. apply NoDup_cons in Hnd as [Hy _].
    destruct Hy. rewrite elem_of_app, elem_of_cons. tauto.
  - simpl in *. apply NoDup_cons in Hnd as [Hz Hnd].
    destruct a' as [|z' a0']; simpl in *.
    + injection Heq as -> _. destruct Hz.
      rewrite elem_of_app, elem_of_cons. tauto.
    + injection Heq as -> Heq. f_equal. by eapply IH.
Qed.

Lemma unique_split l1 y l2 :
  y ∉ l1 ->
  unique (l1 ++ y :: l2)
  = unique l1 ++ y :: filter (fun z => z ∉ l1) (filter (fun z => z ≠ y) (unique l2)).
Proof.
  intros Hy. rewrite unique_app. f_equal.
  rewrite !unique_first_occurrences. simpl.
  by rewrite filter_cons_True.
Qed.

Lemma precedes_unique x y l :
  precedes x y (unique l) <-> first_seen_before x y l.
Proof.
  split.
  - intros (o1 & o2 & Heq & Hx).
    assert (y ∈ l) as Hy.
    { apply elem_of_unique. rewrite Heq, elem_of_app, elem_of_cons. tauto. }
    apply list_elem_of_split_l in Hy as (l1 & l2 & -> & Hy).
    exists l1, l2. split; [done|]. split; [done|].
    rewrite unique_split in Heq by done.
    apply NoDup_split_unique in Heq as <-.
    + by apply elem_of_unique.
    + rewrite <- unique_split by done. apply NoDup_unique.
  - intros (l1 & l2 & -> & Hy & Hx).
    rewrite unique_split by done. eexists _, _. split; [done|].
    by apply elem_of_unique.
Qed.

(** C1. The images of a crawl that succeeds are the images gathered from
    the entry page and then from the later pages in the order of
    [all_pages], with repetitions removed: no address occurs twice, every
    gathered address occurs, and one address stands before another exactly
    when it was seen first.  On [A, B, A, C, B] the loop leaves
    [A, B, C]. *)
Theorem crawl_images_unique_first_seen
    (session_get : string -> outcome Response)
    (BeautifulSoup : string -> outcome node)
    (url : string) (info : GalleryInfo) (log : list event) :
  get_comic_info session_get BeautifulSoup url = (Some info, log) ->
  (∃ soup,
      fetch_entry session_get BeautifulSoup url = Returns soup ∧
      all_pages url soup = url :: later_pages url soup ∧
      let gathered :=
        entry_images soup
        ++ (later_pages url soup ≫= page_images session_get BeautifulSoup) in
      images info = unique gathered ∧
      NoDup (images info) ∧
      (∀ x, x ∈ images info <-> x ∈ gathered) ∧
      (∀ x y, precedes x y (images info) <-> first_seen_before x y gathered))
  ∧ (∀ A B C : string, A ≠ B -> A ≠ C -> B ≠ C ->
       unique [A; B; A; C; B] = [A; B; C]).
Proof.
  intros Hcrawl. split.
  - destruct (fetch_entry session_get BeautifulSoup url) as [soup|e] eqn:Hentry.
    + rewrite (get_comic_info_returns _ _ _ _ Hentry) in Hcrawl.
      injection Hcrawl as <- _. exists soup. split; [done|].
      split; [apply all_pages_cons|]. simpl.
      split; [done|]. split; [apply NoDup_unique|].
      split; [intros x; apply elem_of_unique|].
      intros x y. apply precedes_unique.
    + by rewrite (get_comic_info_raises _ _ _ _ Hentry) in Hcrawl.
  - intros A B C HAB HAC HBC. rewrite unique_first_occurrences.
    cbn [first_occurrences].
    repeat (rewrite ?filter_cons, ?filter_nil;
            try (case_decide; try congruence)).
    done.
Qed.

(** ** The page order *)

Lemma requests_page_logs session_get BeautifulSoup (pages : list string) :
  requests (pages ≫= page_log session_get BeautifulSoup) = pages.
Proof.
  induction pages as [|p r IH]; [done|].
  rewrite bind_cons. unfold requests in *. rewrite omap_app, IH.
  unfold page_log. by destruct (fetch_page _ _ _).
Qed.

Lemma elem_of_page_links n link pagination :
  (n, link) ∈ page_links pagination
  <-> link ∈ hrefs pagination ∧ page_num link = Some n.
Proof.
  rewrite page_links_closed, list_elem_of_omap. unfold numbered. split.
  - intros (href & Hin & Hnum). destruct (page_num href) eqn:E; [|done].
    simpl in Hnum. injection Hnum as -> ->. done.
  - intros [Hin Hnum]. exists link. by rewrite Hnum.
Qed.

Lemma elem_of_later_pages p url soup :
  p ∈ later_pages url soup
  <-> p ≠ url ∧ ∃ pagination n,
        find_class "div" "pagination" soup = Some pagination
        ∧ (n, p) ∈ page_links pagination.
Proof.
  unfold later_pages. rewrite all_pages_closed. simpl.
  rewrite list_elem_of_filter, list_elem_of_singleton.
  destruct (find_class _ _ _) as [pagination|].
  - rewrite elem_of_first_occurrences, list_elem_of_fmap. split.
    + intros [Hne ([n q] & -> & Hin)]. split; [done|].
      exists pagination, n. split; [done|]. by rewrite <- sorted_perm.
    + intros [Hne (pg & n & [= <-] & Hin)]. split; [done|].
      exists (n, p). split; [done|]. by rewrite sorted_perm.
  - split; [by intros [_ ?%elem_of_nil]|]. by intros [_ (? & ? & ? & _)].
Qed.

(** C2. The page order. A pagination link counts when the last segment of
    its address, trailing slashes removed, parses as an integer; the others
    are skipped.  The links that count are sorted by that number,
    ascending, links with equal numbers in document order.  The order
    starts with the entry address and takes the address of each sorted link
    that is not in it yet; the requests of a crawl follow it.  Links
    numbered 3, 1, 2 give entry, page 1, page 2, page 3. *)
Theorem pagination_page_order (url : string) (soup pagination : node) :
  find_class "div" "pagination" soup = Some pagination ->
  (∀ n link,
      (n, link) ∈ page_links pagination
      <-> link ∈ hrefs pagination
          ∧ ∃ segment,
              last (PyStr.split "/" (PyStr.rstrip (Ascii.eqb "/") link))
              = Some segment
              ∧ PyStr.int segment = Some n)
  ∧ page_links pagination = omap numbered (hrefs pagination)
  ∧ sorted (page_links pagination) ≡ₚ page_links pagination
  ∧ StronglySorted num_le (sorted (page_links pagination))
  ∧ (∀ n, filter (fun x : Z * string => x.1 = n) (sorted (page_links pagination))
          = filter (fun x : Z * string => x.1 = n) (page_links pagination))
  ∧ all_pages url soup
    = url :: filter (fun p => p ≠ url)
               (first_occurrences (sorted (page_links pagination)).*2)
  ∧ NoDup (all_pages url soup)
  ∧ (∀ session_get BeautifulSoup,
        fetch_entry session_get BeautifulSoup url = Returns soup ->
        requests (get_comic_info session_get BeautifulSoup url).2
        = all_pages url soup)
  ∧ (∀ p1 p2 p3,
        page_links pagination = [(3, p3); (1, p1); (2, p2)] ->
        NoDup [url; p1; p2; p3] ->
        all_pages url soup = [url; p1; p2; p3]).
Proof.
  intros Hpag. split_and!.
  - intros n link. rewrite elem_of_page_links. unfold page_num.
    split; intros [Hin Hnum]; (split; [done|]).
    + destruct (last _) as [segment|]; [|done]. by exists segment.
    + destruct Hnum as (segment & -> & Hint). done.
  - apply page_links_closed.
  - apply sorted_perm.
  - apply sorted_sorted.
  - intros n. apply sorted_stable.
  - rewrite all_pages_closed, Hpag. f_equal. apply list_filter_iff.
    intros p. by rewrite list_elem_of_singleton.
  - apply NoDup_all_pages.
  - intros session_get BeautifulSoup Hentry.
    rewrite (get_comic_info_returns _ _ _ _ Hentry). simpl.
    change (requests (Get url :: ?l)) with (url :: requests l).
    by rewrite requests_page_logs, all_pages_cons.
  - intros p1 p2 p3 Hlinks Hnd. unfold all_pages. rewrite Hpag, Hlinks.
    apply NoDup_cons in Hnd as [H0 Hnd]. apply NoDup_cons in Hnd as [H1 Hnd].
    apply NoDup_cons in Hnd as [H2 _].
    rewrite !elem_of_cons in H0, H1. rewrite list_elem_of_singleton in H2.
    assert (p1 ∉ [url]) as Hp1 by (set_unfold; intuition congruence).
    assert (p2 ∉ [url; p1]) as Hp2 by (set_unfold; intuition congruence).
    assert (p3 ∉ [url; p1; p2]) as Hp3 by (set_unfold; intuition congruence).
    unfold add_pages. simpl.
    rewrite (bool_decide_eq_false_2 _ Hp1). simpl.
    rewrite (bool_decide_eq_false_2 _ Hp2). simpl.
    by rewrite (bool_decide_eq_false_2 _ Hp3).
Qed.

(** ** Failures *)


(** C8. With no pagination block on the entry page, the images returned
    are those of the entry page, repetitions removed, first occurrence
    kept: its [src] values that pass the test or, when none does, its
    lazy-load values. Scanning the entry page again in the loop changes
    nothing, and nothing else is requested. *)
Theorem single_page_gallery
    (session_get : string -> outcome Response)
    (BeautifulSoup : string -> outcome node) (url : string) (soup : node) :
  fetch_entry session_get BeautifulSoup url = Returns soup ->
  find_class "div" "pagination" soup = None ->
  get_comic_info session_get BeautifulSoup url
  = (Some (mkInfo (page_title soup) (unique (entry_images soup))), [Get url])
  ∧ entry_images soup
    = match src_urls soup with
      | [] => find_all "img" soup ≫= lazy_urls
      | found => found
      end
  ∧ unique (entry_images soup) = first_occurrences (entry_images soup).
Proof.
  intros Hentry Hnone. split_and!.
  - rewrite (get_comic_info_returns _ _ _ _ Hentry).
    unfold later_pages, all_pages. rewrite Hnone. simpl.
    by rewrite app_nil_r.
  - apply entry_images_closed.
  - apply unique_first_occurrences.
Qed.

Lemma crawl_images_unique_first_seen_witness :
  get_comic_info Demo.gallery_get Demo.gallery_parse Demo.root
  = (Some Demo.gallery_info, Demo.gallery_log)
  ∧ NoDup (images Demo.gallery_info)
  ∧ unique ["A"; "B"; "A"; "C"; "B"] = ["A"; "B"; "C"].
Proof.
  assert (get_comic_info Demo.gallery_get Demo.gallery_parse Demo.root
          = (Some Demo.gallery_info, Demo.gallery_log)) as Hcrawl
    by (vm_compute; reflexivity).
  split; [exact Hcrawl|].
  destruct (crawl_images_unique_first_seen _ _ _ _ _ Hcrawl)
    as [(soup & _ & _ & _ & Hnd & _) Hex].
  split; [exact Hnd|]. apply Hex; discriminate.
Defined.

Lemma pagination_page_order_witness :
  find_class "div" "pagination" Demo.entry_doc
  = Some (Demo.pagination [Demo.a Demo.p3; Demo.a Demo.p1; Demo.a Demo.next;
                           Demo.a Demo.p2])
  ∧ all_pages Demo.root Demo.entry_doc
    = [Demo.root; Demo.p1; Demo.p2; Demo.p3].
Proof.
  assert (find_class "div" "pagination" Demo.entry_doc
          = Some (Demo.pagination [Demo.a Demo.p3; Demo.a Demo.p1;
                                   Demo.a Demo.next; Demo.a Demo.p2])) as Hpag
    by (vm_compute; reflexivity).
  split; [exact Hpag|].
  destruct (pagination_page_order Demo.root _ _ Hpag)
    as (_ & _ & _ & _ & _ & _ & _ & _ & Hex).
  apply Hex.
  - vm_compute; reflexivity.
  - apply (bool_decide_unpack _). vm_compute. exact I.
Defined.


Lemma single_page_gallery_witness :
  fetch_entry Demo.single_get Demo.single_parse Demo.root
  = Returns Demo.single_doc
  ∧ find_class "div" "pagination" Demo.single_doc = None
  ∧ get_comic_info Demo.single_get Demo.single_parse Demo.root
    = (Some (mkInfo "Single" [Demo.pic "imgA.jpg"; Demo.pic "imgB.jpg"]),
       [Get Demo.root]).
Proof.
  assert (fetch_entry Demo.single_get Demo.single_parse Demo.root
          = Returns Demo.single_doc) as Hentry by (vm_compute; reflexivity).
  assert (find_class "div" "pagination" Demo.single_doc = None) as Hnone
    by (vm_compute; reflexivity).
  split; [exact Hentry|]. split; [exact Hnone|].
  destruct (single_page_gallery _ _ _ _ Hentry Hnone) as (-> & _ & _).
  vm_compute. reflexivity.
Defined.

(** ** Where the code and its description part *)

(** C3. The lazy-load attributes are read on the entry page only, and
    there exactly when no [src] value passes the test. The loop over the
    later pages (lines 80-85) reads [src] and nothing else: the second page
    of this gallery has no [src] image and one [data-src] image, which the
    entry-page extraction would find, yet the crawl returns without it. *)
Theorem later_page_lazy_images_missed :
  fetch_page Demo.lazy_get Demo.lazy_parse Demo.p2 = Returns Demo.lazy_doc
  ∧ src_urls Demo.lazy_doc = []
  ∧ entry_images Demo.lazy_doc = [Demo.pic "c.jpg"]
  ∧ get_comic_info Demo.lazy_get Demo.lazy_parse Demo.root
    = (Some (mkInfo "Two pages" [Demo.pic "a.jpg"]), [Get Demo.root; Get Demo.p2]).
Proof. vm_compute. done. Qed.

(** C7. A later page answered with 404 is parsed and scanned like any
    other page, because the request of line 75 is not followed by
    [raise_for_status]: nothing is reported and the image of the error page
    reaches the result. *)
Theorem error_page_images_kept :
  Demo.gone_get Demo.p2 = Returns (mkResponse 404 "gone")
  ∧ raise_for_status 404 = Raises (HTTPError 404)
  ∧ get_comic_info Demo.gone_get Demo.gone_parse Demo.root
    = (Some (mkInfo "Two pages"
               [Demo.pic "a.jpg"; "https://www.177picyy.com/images/404.png"]),
       [Get Demo.root; Get Demo.p2]).
Proof. vm_compute. done. Qed.

(** ** Lazy-load attributes *)

Lemma fallback_one_url_per_img_fails :
  find_all "img" Demo.both_doc = [Demo.both_img]
  ∧ is_comic_image (get_or_empty Demo.both_img "data-src") = true
  ∧ scan_lazy Demo.both_doc [] = [Demo.pic "a.jpg"; Demo.pic "b.jpg"].
Proof. vm_compute. done. Qed.

(** C4, as the code has it. In the fallback pass the two lazy-load
    attributes of every image are read in the order [data-src],
    [data-lazy-src], each value under the same test, and every value that
    passes is collected: an image contributes its [data-src] value, then
    its [data-lazy-src] value, so at most two addresses. *)
Theorem fallback_reads_both_attributes (soup : node) :
  scan_lazy soup [] = (find_all "img" soup ≫= lazy_urls)
  ∧ (∀ img,
        lazy_urls img
        = (if is_comic_image (get_or_empty img "data-src")
           then [get_or_empty img "data-src"] else [])
          ++ (if is_comic_image (get_or_empty img "data-lazy-src")
              then [get_or_empty img "data-lazy-src"] else [])
        ∧ (length (lazy_urls img) <= 2)%nat).
Proof.
  split; [by rewrite scan_lazy_closed|].
  intros img. unfold lazy_urls. simpl.
  destruct (is_comic_image _), (is_comic_image _); simpl; split; (done || lia).
Qed.

(** ** The title *)




(** ** The download loop *)

Section DownloadFacts.
Context (urlparse_path : string -> string).
Context (session_get_stream : nat -> string -> outcome Stream).
Context (open_wb : string -> option exn).

Abbreviation turn := (download_one urlparse_path session_get_stream open_wb).
Abbreviation state_after :=
  (after_turns urlparse_path session_get_stream open_wb).

Lemma enumerate_lookup l : forall start k,
  enumerate start l !! k = (fun x => ((start + k)%nat, x)) <$> l !! k.
Proof.
  induction l as [|x r IH]; intros start k; [done|].
  destruct k as [|k]; simpl.
  - by rewrite Nat.add_0_r.
  - rewrite IH. by rewrite Nat.add_succ_r.
Qed.

Lemma enumerate_length l : forall start, length (enumerate start l) = length l.
Proof. induction l as [|x r IH]; intros start; simpl; [done|]. by rewrite IH. Qed.

(** A turn whose target is on the disk prints that it skips and does
    nothing else. *)
Lemma turn_skips output_dir st item :
  path_exists (disk st) (target urlparse_path output_dir item) = true ->
  turn output_dir st item
  = mkProgress (disk st) (downloaded st)
      (output st ++ [Print (Skipping (img_name urlparse_path item.1 item.2))]).
Proof.
  destruct item as [i img_url]. unfold download_one, target. simpl.
  by intros ->.
Qed.

Lemma write_file_keeps p content fs q :
  path_exists fs q = true -> path_exists (write_file p content fs) q = true.
Proof.
  unfold path_exists, write_file. simpl.
  intros [Hd|Hf]%orb_true_iff; apply orb_true_iff; [by left|right].
  apply bool_decide_eq_true in Hf. apply bool_decide_eq_true.
  destruct (decide (p = q)) as [->|Hne].
  - rewrite lookup_insert_eq. by eexists.
  - by rewrite lookup_insert_ne.
Qed.

(** Nothing is ever removed from the disk. *)
Lemma turn_keeps output_dir st item q :
  path_exists (disk st) q = true ->
  path_exists (disk (turn output_dir st item)) q = true.
Proof.
  intros Hq. destruct item as [i img_url]. unfold download_one.
  destruct (path_exists (disk st) (path_join _ _)); [done|].
  unfold fetch_and_write.
  destruct (session_get_stream i img_url) as [response|e]; [|done].
  destruct (raise_for_status _); [|done].
  destruct (open_wb _); [done|].
  destruct (broken response); simpl; by apply write_file_keeps.
Qed.

Lemma turns_keep output_dir items q : forall st,
  path_exists (disk st) q = true ->
  path_exists (disk (fold_left (turn output_dir) items st)) q = true.
Proof.
  induction items as [|item r IH]; intros st Hq; [done|].
  simpl. by apply IH, turn_keeps.
Qed.


Lemma turn_downloaded output_dir st item :
  downloaded (turn output_dir st item)
  = ((if completes urlparse_path session_get_stream open_wb output_dir st item
      then 1 else 0) + downloaded st)%nat.
Proof.
  destruct item as [i img_url]. unfold download_one, completes, target. simpl.
  destruct (path_exists (disk st) _); [done|]. simpl.
  by destruct (fetch_and_write _ _ _ _ _ _) as [fs [[]|e]].
Qed.

Lemma turns_downloaded output_dir items : forall st,
  downloaded (fold_left (turn output_dir) items st)
  = (downloaded st
     + completed urlparse_path session_get_stream open_wb output_dir items st)%nat.
Proof.
  induction items as [|item r IH]; intros st; simpl; [lia|].
  rewrite IH, turn_downloaded. lia.
Qed.

Lemma state_after_step fs image_urls output_dir k img_url :
  image_urls !! k = Some img_url ->
  state_after fs image_urls output_dir (S k)
  = turn output_dir (state_after fs image_urls output_dir k) (S k, img_url).
Proof.
  intros Hk. unfold after_turns.
  rewrite (take_S_r _ _ (S k, img_url)).
  - by rewrite fold_left_app.
  - rewrite enumerate_lookup, Hk. done.
Qed.

End DownloadFacts.



(** * Further properties of the code *)

(** ** The image test (lines 39, 47 and 84) *)

Lemma append_nil_l (b : string) : "" +:+ b = b.
Proof. reflexivity. Qed.

Lemma append_cons (c : ascii) (a b : string) :
  String c a +:+ b = String c (a +:+ b).
Proof. reflexivity. Qed.

Lemma append_assoc (a b c : string) : (a +:+ b) +:+ c = a +:+ (b +:+ c).
Proof.
  induction a as [|x a IH]; [done|]. by rewrite !append_cons, IH.
Qed.

Lemma prefix_occurs needle : forall hay,
  String.prefix needle hay = true <-> ∃ after, hay = needle +:+ after.
Proof.
  induction needle as [|c r IH]; intros hay.
  - destruct hay; (split; [intros _; by eexists|done]).
  - destruct hay as [|c' r']; simpl.
    + split; [done|]. intros [after Heq]. by rewrite append_cons in Heq.
    + destruct (ascii_dec c c') as [->|Hne].
      * rewrite IH. split.
        -- intros [after ->]. by exists after.
        -- intros [after Heq]. rewrite append_cons in Heq.
           injection Heq as ->. by exists after.
      * split; [done|]. intros [after Heq]. rewrite append_cons in Heq.
        by injection Heq as -> _.
Qed.

Lemma contains_occurs needle hay :
  PyStr.contains needle hay = true <-> occurs_in needle hay.
Proof.
  unfold occurs_in. induction hay as [|c r IH]; cbn [PyStr.contains].
  - rewrite orb_false_r, prefix_occurs. split.
    + intros [after Heq]. by exists "", after.
    + intros ([|c a] & after & Heq); [by exists after|].
      by rewrite append_cons in Heq.
  - rewrite orb_true_iff, prefix_occurs, IH. split.
    + intros [[after Heq]|(before & after & ->)].
      * by exists "", after.
      * by exists (String c before), after.
    + intros ([|c' before] & after & Heq).
      * left. by exists after.
      * right. rewrite append_cons in Heq. injection Heq as -> ->.
        by exists before, after.
Qed.

Lemma lower_append a b : PyStr.lower (a +:+ b) = PyStr.lower a +:+ PyStr.lower b.
Proof.
  induction a as [|c a IH]; [done|]. rewrite append_cons. simpl.
  by rewrite IH, append_cons.
Qed.

(** X1. An address passes the image test exactly when [177picyy.com]
    occurs somewhere in it, as written, and one of the four extensions
    occurs somewhere in its lower-case form.  So the extension need not be
    at the end, and the site name need not be the host: any text around
    them is accepted, and an upper-case extension as well. *)
Theorem is_comic_image_occurrences (src : string) :
  (is_comic_image src = true
   <-> occurs_in "177picyy.com" src
       ∧ ∃ ext, ext ∈ [".jpg"; ".jpeg"; ".png"; ".gif"]
                ∧ occurs_in ext (PyStr.lower src))
  ∧ (∀ a b c ext,
        ext ∈ [".jpg"; ".JPG"; ".jpeg"; ".png"; ".gif"] ->
        is_comic_image (a +:+ ("177picyy.com" +:+ (b +:+ (ext +:+ c)))) = true).
Proof.
  assert (is_comic_image src = true
          <-> occurs_in "177picyy.com" src
              ∧ ∃ ext, ext ∈ [".jpg"; ".jpeg"; ".png"; ".gif"]
                       ∧ occurs_in ext (PyStr.lower src)) as Hspec.
  { unfold is_comic_image.
    rewrite andb_true_iff, contains_occurs, existsb_exists.
    split; intros [Hsite (ext & Hext & Hocc)]; (split; [done|]); exists ext.
    - by rewrite list_elem_of_In, <- contains_occurs.
    - by rewrite <- list_elem_of_In, contains_occurs. }
  split; [exact Hspec|]. clear Hspec.
  intros a b c ext Hext. unfold is_comic_image.
  apply andb_true_iff. split.
  - apply contains_occurs. by eexists a, _.
  - apply existsb_exists.
    exists (PyStr.lower ext). split.
    + set_unfold. destruct Hext as [->|[->|[->|[->|[->|[]]]]]]; simpl; tauto.
    + apply contains_occurs. rewrite !lower_append.
      exists (PyStr.lower a +:+ (PyStr.lower "177picyy.com" +:+ PyStr.lower b)),
        (PyStr.lower c).
      by rewrite !append_assoc.
Qed.

Lemma is_comic_image_occurrences_witness :
  ".JPG" ∈ [".jpg"; ".JPG"; ".jpeg"; ".png"; ".gif"]
  ∧ is_comic_image "https://cdn.example/177picyy.com/a.JPG?size=2" = true.
Proof.
  assert (".JPG" ∈ [".jpg"; ".JPG"; ".jpeg"; ".png"; ".gif"]) as Hext
    by (apply (bool_decide_unpack _); vm_compute; exact I).
  split; [exact Hext|].
  destruct (is_comic_image_occurrences "") as [_ Hany].
  exact (Hany "https://cdn.example/" "/a" "?size=2" ".JPG" Hext).
Defined.

(** ** What a crawl returns and requests *)

Lemma src_urls_pass soup x : x ∈ src_urls soup -> is_comic_image x = true.
Proof.
  unfold src_urls. rewrite list_elem_of_In, filter_In. tauto.
Qed.

Lemma entry_images_pass soup x : x ∈ entry_images soup -> is_comic_image x = true.
Proof.
  rewrite entry_images_closed. destruct (src_urls soup) eqn:E.
  - rewrite list_elem_of_bind. intros (img & Hx & _). revert Hx.
    unfold lazy_urls. rewrite list_elem_of_In, filter_In. tauto.
  - rewrite <- E. apply src_urls_pass.
Qed.

(** X2. Every address a crawl returns has passed the image test: it
    holds the site name and an image extension. *)
Theorem crawl_images_pass_test
    (session_get : string -> outcome Response)
    (BeautifulSoup : string -> outcome node)
    (url : string) (info : GalleryInfo) (log : list event) :
  get_comic_info session_get BeautifulSoup url = (Some info, log) ->
  ∀ x, x ∈ images info -> is_comic_image x = true.
Proof.
  intros Hcrawl x.
  destruct (fetch_entry session_get BeautifulSoup url) as [soup|e] eqn:Hentry.
  - rewrite (get_comic_info_returns _ _ _ _ Hentry) in Hcrawl.
    injection Hcrawl as <- _. simpl.
    rewrite elem_of_unique, elem_of_app, list_elem_of_bind.
    intros [Hx|(p & Hx & _)]; [by eapply entry_images_pass|].
    unfold page_images in Hx. destruct (fetch_page _ _ _); [|by inversion Hx].
    by eapply src_urls_pass.
  - by rewrite (get_comic_info_raises _ _ _ _ Hentry) in Hcrawl.
Qed.

Lemma crawl_images_pass_test_witness :
  get_comic_info Demo.gallery_get Demo.gallery_parse Demo.root
  = (Some Demo.gallery_info, Demo.gallery_log)
  ∧ is_comic_image (Demo.pic "d.jpg") = true.
Proof.
  assert (get_comic_info Demo.gallery_get Demo.gallery_parse Demo.root
          = (Some Demo.gallery_info, Demo.gallery_log)) as Hcrawl
    by (vm_compute; reflexivity).
  split; [exact Hcrawl|].
  apply (crawl_images_pass_test _ _ _ _ _ Hcrawl).
  apply (bool_decide_unpack _). vm_compute. exact I.
Defined.

(** X3. A crawl asks for no address twice. The first request is the one
    for the entry page; every other request goes to the [href] of a link of
    the pagination block of the entry page whose last segment parses as an
    integer.  A link such as [.../next] is never followed, and neither is
    anything found on a later page. *)
Theorem crawl_requests
    (session_get : string -> outcome Response)
    (BeautifulSoup : string -> outcome node) (url : string) :
  let sent := requests (get_comic_info session_get BeautifulSoup url).2 in
  NoDup sent
  ∧ head sent = Some url
  ∧ ∀ p, p ∈ sent -> p ≠ url ->
         ∃ soup pagination n,
           fetch_entry session_get BeautifulSoup url = Returns soup
           ∧ find_class "div" "pagination" soup = Some pagination
           ∧ p ∈ hrefs pagination
           ∧ page_num p = Some n.
Proof.
  simpl.
  destruct (fetch_entry session_get BeautifulSoup url) as [soup|e] eqn:Hentry.
  - rewrite (get_comic_info_returns _ _ _ _ Hentry). simpl.
    change (requests (Get url :: ?l)) with (url :: requests l).
    rewrite requests_page_logs. split_and!.
    + rewrite <- all_pages_cons. apply NoDup_all_pages.
    + done.
    + intros p Hp Hne.
      apply elem_of_cons in Hp as [->|Hp]; [done|].
      apply elem_of_later_pages in Hp as (_ & pagination & n & Hpag & Hlink).
      apply elem_of_page_links in Hlink as [Hin Hnum].
      by exists soup, pagination, n.
  - rewrite (get_comic_info_raises _ _ _ _ Hentry). simpl. split_and!.
    + apply NoDup_singleton.
    + done.
    + intros p Hp Hne. change (requests _) with [url] in Hp.
      by apply list_elem_of_singleton in Hp.
Qed.

Lemma crawl_requests_witness :
  Demo.p3 ∈ requests
              (get_comic_info Demo.gallery_get Demo.gallery_parse Demo.root).2
  ∧ Demo.p3 ≠ Demo.root
  ∧ ∃ n, page_num Demo.p3 = Some n.
Proof.
  assert (Demo.p3 ∈ requests
            (get_comic_info Demo.gallery_get Demo.gallery_parse Demo.root).2)
    as Hsent by (apply (bool_decide_unpack _); vm_compute; exact I).
  assert (Demo.p3 ≠ Demo.root) as Hne by discriminate.
  split; [exact Hsent|]. split; [exact Hne|].
  destruct (crawl_requests Demo.gallery_get Demo.gallery_parse Demo.root)
    as (_ & _ & Hlinks).
  destruct (Hlinks _ Hsent Hne) as (_ & _ & n & _ & _ & _ & Hnum).
  by exists n.
Defined.

(** ** Page numbers and trailing slashes (line 61) *)

Lemma rstrip_snoc drop s c :
  drop c = true ->
  PyStr.rstrip drop (s +:+ String c "") = PyStr.rstrip drop s.
Proof.
  intros Hc. induction s as [|x s IH].
  - rewrite append_nil_l. simpl. by rewrite Hc.
  - rewrite append_cons. simpl. by rewrite IH.
Qed.

Lemma append_one_differs (u : string) (c : ascii) : u ≠ u +:+ String c "".
Proof.
  induction u as [|x u IH]; [done|].
  rewrite append_cons. intros [= Heq]. by apply IH.
Qed.

(** X4. A trailing slash does not change the page number of a link, but
    the page order compares whole addresses: a page linked once as [u] and
    once as [u/] is taken twice, under both addresses. *)
Theorem page_num_trailing_slash (href : string) :
  page_num (href +:+ "/") = page_num href
  ∧ (∀ url soup pagination n,
        find_class "div" "pagination" soup = Some pagination ->
        hrefs pagination = [href; href +:+ "/"] ->
        page_num href = Some n ->
        url ∉ [href; href +:+ "/"] ->
        all_pages url soup = [url; href; href +:+ "/"]).
Proof.
  assert (page_num (href +:+ "/") = page_num href) as Hslash.
  { unfold page_num. by rewrite rstrip_snoc. }
  split; [exact Hslash|].
  intros url soup pagination n Hpag Hhrefs Hnum Hurl.
  unfold all_pages. rewrite Hpag, page_links_closed, Hhrefs.
  simpl. unfold numbered. rewrite Hslash, Hnum. simpl.
  rewrite Z.leb_refl. unfold add_pages. simpl.
  assert (href ∉ [url]) as H1 by (set_unfold; intuition congruence).
  rewrite (bool_decide_eq_false_2 _ H1). simpl.
  assert (href +:+ "/" ∉ [url; href]) as H2.
  { pose proof (append_one_differs href "/").
    set_unfold. intuition congruence. }
  by rewrite (bool_decide_eq_false_2 _ H2).
Qed.

Lemma page_num_trailing_slash_witness :
  let soup :=
    Demo.html [Demo.pagination [Demo.a "/g/2"; Demo.a "/g/2/"]] in
  find_class "div" "pagination" soup
  = Some (Demo.pagination [Demo.a "/g/2"; Demo.a "/g/2/"])
  ∧ page_num "/g/2" = Some 2
  ∧ all_pages "/g" soup = ["/g"; "/g/2"; "/g/2/"].
Proof.
  intros soup.
  assert (find_class "div" "pagination" soup
          = Some (Demo.pagination [Demo.a "/g/2"; Demo.a "/g/2/"])) as Hpag
    by (vm_compute; reflexivity).
  assert (page_num "/g/2" = Some 2) as Hnum by (vm_compute; reflexivity).
  split; [exact Hpag|]. split; [exact Hnum|].
  destruct (page_num_trailing_slash "/g/2") as [_ Htwice].
  apply (Htwice "/g" soup _ 2 Hpag).
  - vm_compute. reflexivity.
  - exact Hnum.
  - apply (bool_decide_unpack _). vm_compute. exact I.
Defined.

(** ** More on the de-duplication (lines 94-99) *)

Lemma first_occurrences_NoDup l : NoDup l -> first_occurrences l = l.
Proof.
  induction 1 as [|x r Hx Hr IH]; simpl; [done|].
  rewrite IH. f_equal. clear IH Hr.
  induction r as [|y r IH]; [done|].
  apply not_elem_of_cons in Hx as [Hne Hx].
  rewrite filter_cons_True by congruence. by rewrite IH.
Qed.

Lemma first_occurrences_sublist l : first_occurrences l `sublist_of` l.
Proof.
  induction l as [|x r IH]; simpl; [done|].
  apply sublist_skip. etrans; [apply sublist_filter|done].
Qed.

(** X5. The de-duplication returns a list without repetition as it is,
    so doing it twice is the same as doing it once, and what it returns is
    the given list with some elements left out, the others in their
    order. *)
Theorem unique_keeps_distinct (l : list string) :
  (NoDup l -> unique l = l)
  ∧ unique (unique l) = unique l
  ∧ unique l `sublist_of` l
  ∧ (length (unique l) <= length l)%nat.
Proof.
  rewrite !unique_first_occurrences. split_and!.
  - apply first_occurrences_NoDup.
  - apply first_occurrences_NoDup, NoDup_first_occurrences.
  - apply first_occurrences_sublist.
  - apply sublist_length, first_occurrences_sublist.
Qed.

Lemma unique_keeps_distinct_witness :
  NoDup ["a.jpg"; "b.jpg"] ∧ unique ["a.jpg"; "b.jpg"] = ["a.jpg"; "b.jpg"].
Proof.
  assert (NoDup ["a.jpg"; "b.jpg"]) as Hnd
    by (apply (bool_decide_unpack _); vm_compute; exact I).
  split; [exact Hnd|].
  destruct (unique_keeps_distinct ["a.jpg"; "b.jpg"]) as [Hfix _].
  exact (Hfix Hnd).
Defined.

(** ** More on the title clean-up (lines 33 and 171) *)






(** ** File names (lines 119-123) *)










Section FileNames.
Context (urlparse_path : string -> string).


End FileNames.



Lemma chars_append a b :
  list_ascii_of_string (a +:+ b)
  = list_ascii_of_string a ++ list_ascii_of_string b.
Proof.
  induction a as [|c a IH]; [done|]. rewrite append_cons. simpl. by rewrite IH.
Qed.

Lemma append_inv_tail (a b t : string) : a +:+ t = b +:+ t -> a = b.
Proof.
  intros Heq. apply (f_equal list_ascii_of_string) in Heq.
  rewrite !chars_append in Heq. apply app_inv_tail in Heq.
  apply (f_equal string_of_list_ascii) in Heq.
  by rewrite !string_of_list_ascii_of_string in Heq.
Qed.

Lemma read_nat_zero s : read_nat (String "0" s) = read_nat s.
Proof.
  unfold read_nat. simpl. by destruct (NilEmpty.uint_of_string s).
Qed.

Lemma read_nat_str_nat n : read_nat (PyStr.str_nat n) = Some n.
Proof.
  unfold PyStr.str_nat, NilZero.string_of_uint.
  pose proof (Unsigned.of_to n) as Hn.
  destruct (Nat.to_uint n) eqn:E;
    try (rewrite <- E; unfold read_nat; rewrite NilEmpty.usu; simpl;
         by rewrite E, Hn).
  simpl in Hn. by subst.
Qed.

Lemma read_nat_format n : read_nat (PyStr.format_03d n) = Some n.
Proof.
  unfold PyStr.format_03d, PyStr.zfill3.
  destruct (String.length _) as [|[|[|k]]];
    rewrite ?append_cons, ?append_nil_l, ?read_nat_zero;
    apply read_nat_str_nat.
Qed.

(** X8. The names made up for addresses without a basename carry the
    number of the turn, which can be read back from them; two of them are
    equal only for the same turn, so such images never take each other's
    file. *)
Theorem synthesized_names_distinct
    (urlparse_path : string -> string) (i j : nat) (u v : string) :
  basename (urlparse_path u) = "" ->
  basename (urlparse_path v) = "" ->
  img_name urlparse_path i u = "image_" +:+ (PyStr.format_03d i +:+ ".jpg")
  ∧ read_nat (PyStr.format_03d i) = Some i
  ∧ (img_name urlparse_path i u = img_name urlparse_path j v -> i = j).
Proof.
  intros Hu Hv. unfold img_name. rewrite Hu, Hv. simpl.
  split_and!; [done|apply read_nat_format|].
  intros Heq. apply (inj (String.append "image_")) in Heq.
  apply append_inv_tail in Heq.
  apply (f_equal read_nat) in Heq. rewrite !read_nat_format in Heq.
  by injection Heq.
Qed.

Lemma synthesized_names_distinct_witness :
  basename (Demo.path_of "https://img.177picyy.com/") = ""
  ∧ img_name Demo.path_of 7 "https://img.177picyy.com/" = "image_007.jpg"
  ∧ read_nat "007" = Some 7%nat.
Proof.
  assert (basename (Demo.path_of "https://img.177picyy.com/") = "") as Hu
    by (vm_compute; reflexivity).
  split; [exact Hu|].
  destruct (synthesized_names_distinct Demo.path_of 7 7 _ _ Hu Hu)
    as (Hname & Hread & _).
  split; [rewrite Hname; vm_compute; reflexivity|exact Hread].
Defined.

(** ** What the download loop does to the disk (lines 110-145) *)

Lemma append_nil_r (s : string) : s +:+ "" = s.
Proof. induction s as [|c s IH]; [done|]. by rewrite append_cons, IH. Qed.

Lemma concat_cons (chunk : string) (rest : list string) :
  String.concat "" (chunk :: rest) = chunk +:+ String.concat "" rest.
Proof. destruct rest; [by rewrite append_nil_r|reflexivity]. Qed.

Lemma write_chunks_from chunks : forall f,
  fold_left (fun f chunk => if String.eqb chunk "" then f else f +:+ chunk)
    chunks f
  = f +:+ String.concat "" chunks.
Proof.
  induction chunks as [|chunk rest IH]; intros f.
  - by rewrite append_nil_r.
  - rewrite concat_cons. cbn [fold_left]. rewrite IH.
    destruct (String.eqb_spec chunk "") as [->|_]; [done|].
    by rewrite append_assoc.
Qed.

Lemma write_chunks_concat chunks : write_chunks chunks = String.concat "" chunks.
Proof. unfold write_chunks. by rewrite write_chunks_from. Qed.

Section DiskFacts.
Context (urlparse_path : string -> string).
Context (session_get_stream : nat -> string -> outcome Stream).
Context (open_wb : string -> option exn).

Abbreviation turn' := (download_one urlparse_path session_get_stream open_wb).
Abbreviation state' := (after_turns urlparse_path session_get_stream open_wb).
Abbreviation run' := (download_images urlparse_path session_get_stream open_wb).
Abbreviation target' := (target urlparse_path).

Lemma path_exists_file fs p content :
  files fs !! p = Some content -> path_exists fs p = true.
Proof.
  intros Hp. unfold path_exists. apply orb_true_iff. right.
  apply bool_decide_eq_true. by eexists.
Qed.

(** A turn writes at most its own target, and only when nothing is
    there. *)
Lemma turn_files output_dir st item p :
  p ≠ target' output_dir item ∨ path_exists (disk st) p = true ->
  files (disk (turn' output_dir st item)) !! p = files (disk st) !! p.
Proof.
  intros Hp. destruct item as [i img_url]. unfold download_one.
  change (path_join output_dir (img_name urlparse_path i img_url))
    with (target' output_dir (i, img_url)).
  destruct (path_exists (disk st) (target' output_dir (i, img_url))) eqn:Hthere;
    [done|].
  assert (p ≠ target' output_dir (i, img_url)) as Hne.
  { destruct Hp as [Hp|Hp]; [done|]. intros ->. congruence. }
  unfold fetch_and_write.
  destruct (session_get_stream i img_url) as [response|e]; [|done].
  destruct (raise_for_status _); [|done].
  destruct (open_wb _); [done|].
  destruct (broken response); simpl; by rewrite lookup_insert_ne.
Qed.


Lemma turns_files_existing output_dir items p : forall st,
  path_exists (disk st) p = true ->
  files (disk (fold_left (turn' output_dir) items st)) !! p
  = files (disk st) !! p.
Proof.
  induction items as [|item rest IH]; intros st Hp; [done|]. simpl.
  rewrite IH by by apply turn_keeps.
  apply turn_files. by right.
Qed.

Lemma turns_files_other output_dir items p : forall st,
  (∀ item, item ∈ items -> p ≠ target' output_dir item) ->
  files (disk (fold_left (turn' output_dir) items st)) !! p
  = files (disk st) !! p.
Proof.
  induction items as [|item rest IH]; intros st Hp; [done|]. simpl.
  rewrite IH by (intros it Hit; apply Hp; by right).
  apply turn_files. left. apply Hp. by left.
Qed.


Lemma elem_of_enumerate item l :
  item ∈ enumerate 1 l -> ∃ k, l !! k = Some item.2 ∧ item.1 = S k.
Proof.
  intros [k Hk]%list_elem_of_lookup. exists k.
  rewrite enumerate_lookup in Hk. destruct (l !! k) as [x|]; [|done].
  simpl in Hk. by injection Hk as <-.
Qed.

Lemma run_from_state fs image_urls output_dir k :
  run' fs image_urls output_dir
  = fold_left (turn' output_dir) (drop k (enumerate 1 image_urls))
      (state' fs image_urls output_dir k).
Proof.
  unfold download_images, after_turns.
  by rewrite <- fold_left_app, take_drop.
Qed.


(** X10. The only files the download loop creates are the targets of
    the addresses it was given: the content found under any other path is
    what was there before. *)
Theorem download_writes_targets_only
    (fs : filesystem) (image_urls : list string) (output_dir p : string) :
  (∀ k img_url, image_urls !! k = Some img_url ->
                p ≠ target' output_dir (S k, img_url)) ->
  files (disk (run' fs image_urls output_dir)) !! p = files fs !! p.
Proof.
  intros Hp. unfold download_images. rewrite turns_files_other.
  - unfold prepare. simpl. by destruct (path_exists fs output_dir).
  - intros [i img_url] (k & Hk & Hi)%elem_of_enumerate. simpl in *.
    subst i. by apply Hp.
Qed.
End DiskFacts.


Lemma download_writes_targets_only_witness :
  (∀ k img_url, Demo.two_urls !! k = Some img_url ->
                "out/c.jpg" ≠ target Demo.path_of "out" (S k, img_url))
  ∧ files (disk (download_images Demo.path_of Demo.stream_get Demo.open_ok
                   Demo.disk0 Demo.two_urls "out")) !! "out/c.jpg"
    = None.
Proof.
  assert (∀ k img_url, Demo.two_urls !! k = Some img_url ->
            "out/c.jpg" ≠ target Demo.path_of "out" (S k, img_url)) as Hp.
  { intros [|[|k]] img_url Hk; [| |done]; injection Hk as <-;
      vm_compute; discriminate. }
  split; [exact Hp|].
  rewrite (download_writes_targets_only Demo.path_of Demo.stream_get
             Demo.open_ok Demo.disk0 Demo.two_urls "out" _ Hp).
  vm_compute. reflexivity.
Defined.

Section RunFacts.
Context (urlparse_path : string -> string).
Context (session_get_stream : nat -> string -> outcome Stream).
Context (open_wb : string -> option exn).

Abbreviation turn'' := (download_one urlparse_path session_get_stream open_wb).
Abbreviation state'' :=
  (after_turns urlparse_path session_get_stream open_wb).
Abbreviation run'' :=
  (download_images urlparse_path session_get_stream open_wb).

Lemma requests_snoc log e : requests (log ++ [e])
  = requests log ++ match e with Get url => [url] | Print _ => [] end.
Proof. unfold requests. rewrite omap_app. by destruct e. Qed.

(** One turn: at most one request, for the address of the turn, and the
    counter moves only with a request. *)
Lemma turn_requests output_dir st item :
  ∃ sent,
    requests (output (turn'' output_dir st item)) = requests (output st) ++ sent
    ∧ (sent = [] ∨ sent = [item.2])
    ∧ (downloaded (turn'' output_dir st item)
       <= downloaded st + length sent)%nat.
Proof.
  destruct item as [i img_url]. unfold download_one.
  destruct (path_exists _ _).
  - exists []. simpl. rewrite requests_snoc, app_nil_r. split_and!; auto; lia.
  - exists [img_url].
    destruct (fetch_and_write _ _ _ _ _ _) as [fs [[]|e]]; simpl;
      (split_and!; [|by right|lia]);
      unfold requests; by rewrite omap_app.
Qed.

Lemma turns_requests output_dir items : forall st,
  ∃ sent,
    requests (output (fold_left (turn'' output_dir) items st))
    = requests (output st) ++ sent
    ∧ sent ⊆ items.*2
    ∧ (length sent <= length items)%nat
    ∧ (downloaded (fold_left (turn'' output_dir) items st)
       <= downloaded st + length sent)%nat.
Proof.
  induction items as [|item rest IH]; intros st.
  - exists []. simpl. rewrite app_nil_r. split_and!; [done| |done|lia].
    apply list_subseteq_nil.
  - simpl.
    destruct (turn_requests output_dir st item) as (s1 & H1 & Hs1 & Hd1).
    destruct (IH (turn'' output_dir st item)) as (s2 & H2 & Hs2 & Hl2 & Hd2).
    exists (s1 ++ s2). rewrite H2, H1, <- app_assoc, length_app.
    split_and!; [done| | |].
    + intros x [Hx|Hx]%elem_of_app.
      * destruct Hs1 as [->| ->]; [by apply elem_of_nil in Hx|].
        apply list_elem_of_singleton in Hx as ->. by left.
      * right. by apply Hs2.
    + destruct Hs1 as [->| ->]; simpl; lia.
    + lia.
Qed.

(** X11. The loop asks only for addresses it was given, at most once for
    each position of the list, and counts no more images than it sent
    requests. *)
Theorem download_requests_bounded
    (fs : filesystem) (image_urls : list string) (output_dir : string) :
  let run := run'' fs image_urls output_dir in
  requests (output run) ⊆ image_urls
  ∧ (downloaded run <= length (requests (output run)) <= length image_urls)%nat.
Proof.
  simpl. unfold download_images.
  destruct (turns_requests output_dir (enumerate 1 image_urls)
              (prepare fs output_dir)) as (sent & -> & Hsub & Hlen & Hdown).
  simpl in *. rewrite enumerate_length in Hlen. split_and!; [|lia|lia].
  intros x Hx. apply Hsub in Hx.
  apply list_elem_of_fmap in Hx as ([i u] & -> & Hin).
  apply elem_of_enumerate in Hin as (k & Hk & _).
  by eapply list_elem_of_lookup_2.
Qed.
End RunFacts.

Section StoredFacts.
Context (urlparse_path : string -> string).
Context (session_get_stream : nat -> string -> outcome Stream).
Context (open_wb : string -> option exn).

Abbreviation turn3 := (download_one urlparse_path session_get_stream open_wb).
Abbreviation state3 := (after_turns urlparse_path session_get_stream open_wb).
Abbreviation run3 := (download_images urlparse_path session_get_stream open_wb).

(** A turn that gets as far as opening the file. *)
Lemma turn_opens output_dir st i img_url response :
  let path := target urlparse_path output_dir (i, img_url) in
  let name := img_name urlparse_path i img_url in
  path_exists (disk st) path = false ->
  session_get_stream i img_url = Returns response ->
  (400 <=? stream_status response) && (stream_status response <? 600) = false ->
  open_wb path = None ->
  turn3 output_dir st (i, img_url)
  = mkProgress
      (write_file path (String.concat "" (iter_content response)) (disk st))
      (match broken response with
       | None => S (downloaded st)
       | Some _ => downloaded st
       end)
      (output st
       ++ [Print (Downloading name); Get img_url;
           Print match broken response with
                 | None => Downloaded name
                 | Some e => ErrorDownloading img_url e
                 end]).
Proof.
  intros path name Hfree Hget Hstatus Hopen. subst path name.
  unfold target in *. simpl in *. unfold download_one.
  rewrite Hfree. unfold fetch_and_write, raise_for_status.
  rewrite Hget, Hstatus, Hopen, write_chunks_concat.
  by destruct (broken response).
Qed.

Lemma turn_output output_dir st item :
  output st `prefix_of` output (turn3 output_dir st item).
Proof.
  destruct item as [i img_url]. unfold download_one.
  destruct (path_exists _ _); [by eexists|].
  destruct (fetch_and_write _ _ _ _ _ _) as [fs [[]|e]]; by eexists.
Qed.

Lemma turns_output output_dir items : forall st,
  output st `prefix_of` output (fold_left (turn3 output_dir) items st).
Proof.
  induction items as [|item rest IH]; intros st; [done|]. simpl.
  etrans; [apply turn_output|apply IH].
Qed.

(** X12. Once the file of an image has been opened, the chunks received
    are on the disk when the function returns, joined in order.  When the
    transfer was complete the image was counted and reported; when it
    broke, the part received stays under the name of the image, the image
    is not counted, the error is reported, and since the file exists a
    later turn or a later call for this target only skips it. *)
Theorem download_leaves_received_chunks
    (fs : filesystem) (image_urls : list string) (output_dir : string)
    (k : nat) (img_url : string) (response : Stream) :
  let path := target urlparse_path output_dir (S k, img_url) in
  let name := img_name urlparse_path (S k) img_url in
  let before := state3 fs image_urls output_dir k in
  let after := state3 fs image_urls output_dir (S k) in
  let run := run3 fs image_urls output_dir in
  image_urls !! k = Some img_url ->
  path_exists (disk before) path = false ->
  session_get_stream (S k) img_url = Returns response ->
  (400 <=? stream_status response) && (stream_status response <? 600) = false ->
  open_wb path = None ->
  files (disk run) !! path = Some (String.concat "" (iter_content response))
  ∧ path_exists (disk run) path = true
  ∧ (broken response = None ->
     downloaded after = S (downloaded before)
     ∧ Print (Downloaded name) ∈ output run)
  ∧ (∀ e, broken response = Some e ->
          downloaded after = downloaded before
          ∧ Print (ErrorDownloading img_url e) ∈ output run)
  ∧ (∀ get' open' st j u,
        disk st = disk run ->
        target urlparse_path output_dir (j, u) = path ->
        download_one urlparse_path get' open' output_dir st (j, u)
        = mkProgress (disk st) (downloaded st)
            (output st ++ [Print (Skipping (img_name urlparse_path j u))])).
Proof.
  intros path name before after run Hk Hfree Hget Hstatus Hopen.
  assert (after
          = turn3 output_dir before (S k, img_url)) as Hstep
    by by apply state_after_step.
  rewrite (turn_opens _ _ _ _ _ Hfree Hget Hstatus Hopen) in Hstep.
  assert (files (disk after) !! path
          = Some (String.concat "" (iter_content response))) as Hfile.
  { rewrite Hstep. simpl. apply lookup_insert_eq. }
  assert (files (disk run) !! path
          = Some (String.concat "" (iter_content response))) as Hend.
  { unfold run. rewrite (run_from_state _ _ _ _ _ _ (S k)).
    rewrite turns_files_existing; [done|]. by eapply path_exists_file. }
  assert (output after `prefix_of` output run) as Hout.
  { unfold run. rewrite (run_from_state _ _ _ _ _ _ (S k)). apply turns_output. }
  assert (∀ e, e ∈ output after -> e ∈ output run) as Hin.
  { intros e He. destruct Hout as [more ->]. apply elem_of_app. by left. }
  split_and!.
  - exact Hend.
  - by eapply path_exists_file.
  - intros Hok. rewrite Hstep, Hok. simpl. split; [done|].
    apply Hin. rewrite Hstep, Hok. simpl.
    rewrite elem_of_app, !elem_of_cons. tauto.
  - intros e He. rewrite Hstep, He. simpl. split; [done|].
    apply Hin. rewrite Hstep, He. simpl.
    rewrite elem_of_app, !elem_of_cons. tauto.
  - intros get' open' st j u Hdisk Htarget.
    apply (turn_skips urlparse_path get' open' output_dir st (j, u)).
    rewrite Htarget, Hdisk. by eapply path_exists_file.
Qed.
End StoredFacts.

Lemma download_leaves_received_chunks_witness :
  let run :=
    download_images Demo.path_of DemoDisk.broken_get Demo.open_ok Demo.disk0
      Demo.two_urls "out" in
  Demo.two_urls !! 1%nat = Some (Demo.pic "b.jpg")
  ∧ path_exists
      (disk (after_turns Demo.path_of DemoDisk.broken_get Demo.open_ok
               Demo.disk0 Demo.two_urls "out" 1))
      (target Demo.path_of "out" (2%nat, Demo.pic "b.jpg")) = false
  ∧ files (disk run) !! "out/b.jpg" = Some "JF"
  ∧ downloaded run = 0%nat.
Proof.
  intros run.
  assert (Demo.two_urls !! 1%nat = Some (Demo.pic "b.jpg")) as Hk
    by reflexivity.
  assert (path_exists
            (disk (after_turns Demo.path_of DemoDisk.broken_get Demo.open_ok
                     Demo.disk0 Demo.two_urls "out" 1))
            (target Demo.path_of "out" (2%nat, Demo.pic "b.jpg")) = false)
    as Hfree by (vm_compute; reflexivity).
  split; [exact Hk|]. split; [exact Hfree|].
  destruct (download_leaves_received_chunks Demo.path_of DemoDisk.broken_get
              Demo.open_ok Demo.disk0 Demo.two_urls "out" 1 _ _
              Hk Hfree eq_refl eq_refl eq_refl) as (Hfile & _).
  split; [exact Hfile|]. vm_compute. reflexivity.
Defined.

(** ** Calling the download loop again *)

Section Rerun.
Context (urlparse_path : string -> string).
Context (session_get_stream : nat -> string -> outcome Stream).
Context (open_wb : string -> option exn).

Abbreviation turn4 := (download_one urlparse_path session_get_stream open_wb).

Lemma completed_le output_dir items : forall st,
  (completed urlparse_path session_get_stream open_wb output_dir items st
   <= length items)%nat.
Proof.
  induction items as [|item rest IH]; intros st; simpl; [lia|].
  specialize (IH (turn4 output_dir st item)).
  destruct (completes _ _ _ _ _ _); lia.
Qed.

Lemma completes_writes output_dir st item :
  completes urlparse_path session_get_stream open_wb output_dir st item = true ->
  path_exists (disk (turn4 output_dir st item))
    (target urlparse_path output_dir item) = true.
Proof.
  destruct item as [i img_url]. unfold completes, download_one, target.
  simpl. destruct (path_exists (disk st) _); [done|]. simpl.
  unfold fetch_and_write.
  destruct (session_get_stream i img_url) as [response|e]; [|done].
  destruct (raise_for_status _); [|done].
  destruct (open_wb _); [done|].
  destruct (broken response); [done|]. intros _. simpl.
  eapply path_exists_file. simpl. apply lookup_insert_eq.
Qed.

Lemma all_completed_exist output_dir items : forall st,
  completed urlparse_path session_get_stream open_wb output_dir items st
  = length items ->
  ∀ item, item ∈ items ->
    path_exists (disk (fold_left (turn4 output_dir) items st))
      (target urlparse_path output_dir item) = true.
Proof.
  induction items as [|it rest IH]; intros st Hall item Hin.
  - by apply elem_of_nil in Hin.
  - simpl in *.
    pose proof (completed_le output_dir rest (turn4 output_dir st it)) as Hle.
    destruct (completes _ _ _ _ _ _) eqn:Hdone; [|lia].
    apply elem_of_cons in Hin as [->|Hin].
    + by apply turns_keep, completes_writes.
    + apply IH; [lia|done].
Qed.

Lemma prepare_makes_dir fs output_dir :
  path_exists (disk (prepare fs output_dir)) output_dir = true.
Proof.
  unfold prepare. simpl. destruct (path_exists fs output_dir) eqn:E; [done|].
  unfold path_exists, makedirs. simpl. apply orb_true_iff. left.
  apply bool_decide_eq_true, elem_of_union. left. by apply elem_of_singleton.
Qed.
End Rerun.

(** When every target is there, the loop only skips. *)
Lemma all_skipped urlparse_path get' open' output_dir items : forall st,
  (∀ item, item ∈ items ->
     path_exists (disk st) (target urlparse_path output_dir item) = true) ->
  let final :=
    fold_left (download_one urlparse_path get' open' output_dir) items st in
  disk final = disk st
  ∧ downloaded final = downloaded st
  ∧ requests (output final) = requests (output st).
Proof.
  induction items as [|item rest IH]; intros st Hall; [done|]. simpl.
  rewrite turn_skips by (apply Hall; by left).
  destruct (IH (mkProgress (disk st) (downloaded st)
                  (output st
                   ++ [Print (Skipping (img_name urlparse_path item.1 item.2))])))
    as (Hd & Hn & Hr).
  { intros it Hit. simpl. apply Hall. by right. }
  simpl in *. rewrite Hd, Hn, Hr. split_and!; [done|done|].
  unfold requests. by rewrite omap_app, app_nil_r.
Qed.

(** X13. After a call that downloaded every image of the list, a second
    call with the same list and directory sends no request, downloads
    nothing and leaves the disk as it is, whatever the servers would
    answer. *)
Theorem download_again_does_nothing
    (urlparse_path : string -> string)
    (session_get_stream get' : nat -> string -> outcome Stream)
    (open_wb open' : string -> option exn)
    (fs : filesystem) (image_urls : list string) (output_dir : string) :
  let first :=
    download_images urlparse_path session_get_stream open_wb fs image_urls
      output_dir in
  let second :=
    download_images urlparse_path get' open' (disk first) image_urls
      output_dir in
  downloaded first = length image_urls ->
  disk second = disk first
  ∧ downloaded second = 0%nat
  ∧ requests (output second) = [].
Proof.
  intros first second Hall. subst first second.
  set (first := download_images _ _ _ fs image_urls output_dir) in *.
  assert (path_exists (disk first) output_dir = true) as Hdir.
  { apply turns_keep, prepare_makes_dir. }
  assert (∀ item, item ∈ enumerate 1 image_urls ->
            path_exists (disk first) (target urlparse_path output_dir item) = true)
    as Hthere.
  { apply all_completed_exist.
    unfold first, download_images in Hall.
    rewrite turns_downloaded, enumerate_length in *. simpl in Hall. lia. }
  unfold download_images at 1 2 3, prepare. rewrite Hdir.
  by apply (all_skipped urlparse_path get' open' output_dir
              (enumerate 1 image_urls) (mkProgress (disk first) 0 [])).
Qed.

Lemma download_again_does_nothing_witness :
  let first :=
    download_images Demo.path_of Demo.stream_get Demo.open_ok
      DemoDisk.empty_disk Demo.two_urls "out" in
  downloaded first = length Demo.two_urls
  ∧ requests
      (output (download_images Demo.path_of DemoDisk.broken_get Demo.open_ok
                 (disk first) Demo.two_urls "out")) = [].
Proof.
  intros first.
  assert (downloaded first = length Demo.two_urls) as Hall
    by (vm_compute; reflexivity).
  split; [exact Hall|].
  by destruct (download_again_does_nothing Demo.path_of Demo.stream_get
                 DemoDisk.broken_get Demo.open_ok Demo.open_ok
                 DemoDisk.empty_disk Demo.two_urls "out" Hall) as (_ & _ & Hreq).
Defined.

(** ** The driver (lines 147-179) *)

Lemma inner_events_inr (log : list event) :
  inner_events (inr <$> log : list (main_message + event)) = log.
Proof.
  induction log as [|e r IH]; [done|].
  unfold inner_events in *. cbn. by f_equal.
Qed.

Lemma inner_events_app (a b : list (main_message + event)) :
  inner_events (a ++ b) = inner_events a ++ inner_events b.
Proof. unfold inner_events. apply omap_app. Qed.


Section MainFacts.
Context (session_get : string -> outcome Response).
Context (BeautifulSoup : string -> outcome node).
Context (urlparse_path : string -> string).
Context (session_get_stream : nat -> string -> outcome Stream).
Context (open_wb : string -> option exn).

Abbreviation run_main :=
  (main session_get BeautifulSoup urlparse_path session_get_stream open_wb).
Abbreviation crawl' := (get_comic_info session_get BeautifulSoup).
Abbreviation download' :=
  (download_images urlparse_path session_get_stream open_wb).

(** X14. Without an address, without a result of the crawl, or with a
    result that has no image, [main] leaves the disk as it is and asks for
    no image; the only requests are those of the crawl.  With fewer than
    two arguments nothing is requested at all. *)
Theorem main_without_images (argv : list string) (fs : filesystem) :
  match argv !! 1%nat with
  | None => True
  | Some comic_url =>
      match (crawl' comic_url).1 with
      | None => True
      | Some info => images info = []
      end
  end ->
  main_disk (run_main argv fs) = fs
  ∧ requests (inner_events (main_output (run_main argv fs)))
    = match argv !! 1%nat with
      | None => []
      | Some comic_url => requests (crawl' comic_url).2
      end.
Proof.
  destruct argv as [|prog [|comic_url rest]]; [done|done|]. simpl.
  destruct (crawl' comic_url) as [[info|] log]; simpl.
  - intros ->. simpl.
    by rewrite inner_events_app, inner_events_inr, app_nil_r.
  - intros _. by rewrite inner_events_app, inner_events_inr, app_nil_r.
Qed.

End MainFacts.

Lemma main_without_images_witness :
  (get_comic_info Demo.gallery_get Demo.gallery_parse Demo.next).1 = None
  ∧ main_disk
      (main Demo.gallery_get Demo.gallery_parse Demo.path_of Demo.stream_get
         Demo.open_ok ["177dl.py"; Demo.next] Demo.disk0)
    = Demo.disk0.
Proof.
  split; [vm_compute; reflexivity|].
  apply (main_without_images Demo.gallery_get Demo.gallery_parse Demo.path_of
           Demo.stream_get Demo.open_ok ["177dl.py"; Demo.next] Demo.disk0).
  vm_compute. exact I.
Defined.


(** ** The page order does not depend on the order of the links *)

Lemma sorted_by_num_unique (l1 : list (Z * string)) : forall l2,
  StronglySorted num_le l1 -> StronglySorted num_le l2 ->
  l1 ≡ₚ l2 -> NoDup l1.*1 -> l1 = l2.
Proof.
  induction l1 as [|x r1 IH]; intros l2 Hs1 Hs2 Hperm Hnd.
  - by apply Permutation_nil_l in Hperm.
  - destruct l2 as [|y r2]; [by apply Permutation_nil_r in Hperm|].
    apply StronglySorted_inv in Hs1 as [Hs1 Hx].
    apply StronglySorted_inv in Hs2 as [Hs2 Hy].
    rewrite Forall_forall in Hx, Hy.
    assert (x = y) as ->.
    { destruct (decide (x = y)) as [|Hne]; [done|].
      assert (y ∈ r1) as Hyin.
      { assert (y ∈ x :: r1) as Hin by (rewrite Hperm; by left).
        apply elem_of_cons in Hin as [->|]; [done|done]. }
      assert (x ∈ r2) as Hxin.
      { assert (x ∈ y :: r2) as Hin by (rewrite <- Hperm; by left).
        apply elem_of_cons in Hin as [->|]; [done|done]. }
      pose proof (Hx _ Hyin) as Hle1. pose proof (Hy _ Hxin) as Hle2.
      unfold num_le in *. assert (x.1 = y.1) as Heq by lia.
      rewrite fmap_cons in Hnd. apply NoDup_cons in Hnd as [Hnot _].
      destruct Hnot. rewrite Heq. by apply list_elem_of_fmap_2. }
    f_equal. apply Permutation_cons_inv in Hperm.
    rewrite fmap_cons in Hnd. apply NoDup_cons in Hnd as [_ Hnd].
    by apply IH.
Qed.

(** X16. When no two of the links that count carry the same number, the
    page order depends on the set of these links only, not on their order
    in the document: two entry pages whose pagination blocks hold the same
    numbered links give the same list of pages. *)
Theorem page_order_ignores_link_order
    (url : string) (soup1 soup2 pagination1 pagination2 : node) :
  find_class "div" "pagination" soup1 = Some pagination1 ->
  find_class "div" "pagination" soup2 = Some pagination2 ->
  page_links pagination1 ≡ₚ page_links pagination2 ->
  NoDup (page_links pagination1).*1 ->
  all_pages url soup1 = all_pages url soup2.
Proof.
  intros Hp1 Hp2 Hperm Hnd. unfold all_pages. rewrite Hp1, Hp2. f_equal.
  apply sorted_by_num_unique; try apply sorted_sorted.
  - by rewrite !sorted_perm.
  - by rewrite sorted_perm.
Qed.

Lemma page_order_ignores_link_order_witness :
  let forwards := Demo.pagination [Demo.a Demo.p1; Demo.a Demo.p2; Demo.a Demo.p3] in
  let mixed :=
    Demo.pagination [Demo.a Demo.p3; Demo.a Demo.p1; Demo.a Demo.next;
                     Demo.a Demo.p2] in
  find_class "div" "pagination" (Demo.html [forwards]) = Some forwards
  ∧ find_class "div" "pagination" Demo.entry_doc = Some mixed
  ∧ all_pages Demo.root (Demo.html [forwards])
    = all_pages Demo.root Demo.entry_doc.
Proof.
  intros forwards mixed.
  assert (find_class "div" "pagination" (Demo.html [forwards]) = Some forwards)
    as H1 by (vm_compute; reflexivity).
  assert (find_class "div" "pagination" Demo.entry_doc = Some mixed)
    as H2 by (vm_compute; reflexivity).
  split; [exact H1|]. split; [exact H2|].
  apply (page_order_ignores_link_order Demo.root _ _ _ _ H1 H2).
  - replace (page_links forwards)
      with [(1, Demo.p1); (2, Demo.p2); (3, Demo.p3)]
      by (vm_compute; reflexivity).
    replace (page_links mixed)
      with [(3, Demo.p3); (1, Demo.p1); (2, Demo.p2)]
      by (vm_compute; reflexivity).
    etrans; [|apply Permutation_swap]. apply perm_skip, Permutation_swap.
  - apply (bool_decide_unpack _). vm_compute. exact I.
Defined.

(** ** Where the driver writes *)

Section MainDisk.
Context (session_get : string -> outcome Response).
Context (BeautifulSoup : string -> outcome node).
Context (urlparse_path : string -> string).
Context (session_get_stream : nat -> string -> outcome Stream).
Context (open_wb : string -> option exn).


End MainDisk.


(** ** Page numbers of numbered links (line 61) *)














